(** * mail_server: a shallow embedding of the mail-merge and OTP back end

    The repository holds five Express servers that share their code by
    copy: the AI template generator ([server.js]), the CSV bulk sender
    ([mail_sender.js]), the OTP service ([mail.js]), the merged server
    that unites the three, and a second merged server, called its twin
    below, without the CSV sender.  This development embeds, function by
    function,

    - the retrying call to the generative endpoint ([fetchWithBackoff]),
    - the [[Name]] personalisation ([String.prototype.replace] with the
      global pattern [/\[Name\]/g]),
    - the share-link rewriting ([normalizeImageUrl]),
    - the bulk send loop and the [/send-csv] handler around it,
    - the OTP store with [/send-otp], [/verify-otp] and the periodic sweep,
    - the inline-image helpers ([pickImageMime], [processInlineImage]),
    - the basic bulk sender ([/send-mails]),
    - the [/generate-email] handler with its clean-up of the model's answer,
    - the start-up loop of the twin ([startServer]),

    and proves the properties the specification states about them,
    followed by further properties that the code itself shows.

    Conventions.  A JavaScript object used as a dictionary (a CSV row, the
    OTP store) is a [gmap] with string keys; a field that may be missing
    is an [option string], and JavaScript truthiness of such a field is
    [truthy].  A promise that settles is a [Settled] value.  What the
    runtime supplies ([Date.now()], [Math.random()], the mail transport,
    the document store, the URL parser, [fetch]) is an explicit argument.
    A string is a sequence of bytes; the patterns the code searches for
    are ASCII, so matching bytes and matching UTF-16 units agree.  A CSV
    row is read under the four keys [email], [Email], [name] and [Name]
    only, none of which [Object.prototype] has; the OTP store is read
    under whatever address a request names, and its model follows the
    prototype chain.  The first half of the file holds the model and
    the vocabulary of the statements, the second half the theorems. *)

From Stdlib Require Import ZArith QArith Qround Qabs Qpower SpecFloat.
From Stdlib Require Import Ascii String List Lia Lqa.
From Equations Require Import Equations.
From stdpp Require Import base gmap list strings.

Open Scope string_scope.
Open Scope Z_scope.

(* ================================================================== *)
(** * Part I: the model                                                *)
(* ================================================================== *)

(** ** JavaScript values shared by the handlers *)

(** [!!v] for a value that is a string or [undefined]: the empty string
    and [undefined] are the falsy ones. *)
Definition truthy (v : option string) : bool :=
  match v with
  | Some s => negb (String.eqb s "")
  | None => false
  end.

(** [a || b] on such values. *)
Definition orElse (a b : option string) : option string :=
  if truthy a then a else b.

(** How an awaited promise settles: it resolves, or it rejects with an
    error whose [message] is kept. *)
Inductive Settled : Type :=
| Resolved
| Rejected (message : string).

(** The double quote, which the sources write inside template literals. *)
Definition dquote : string := String "034" "".

(** ** Number to string

    [Number.prototype.toString] on an integer-valued number below 1e21
    prints its decimal digits, most significant first. *)

Definition digitChar (d : Z) : ascii := ascii_of_nat (48 + Z.to_nat d).

Fixpoint digitsOf (fuel : nat) (n : Z) (acc : string) : string :=
  match fuel with
  | O => acc
  | S fuel' =>
      let acc' := String (digitChar (n mod 10)) acc in
      if n <? 10 then acc' else digitsOf fuel' (n / 10) acc'
  end.

(** A number of [b] bits has at most [b] decimal digits, so the fuel
    below never runs out. *)
Definition toString (n : Z) : string :=
  if n <? 0
  then String "-" (digitsOf (S (Z.to_nat (Z.log2 (- n)))) (- n) "")
  else digitsOf (S (Z.to_nat (Z.log2 n))) n "".

Definition isDigit (c : ascii) : bool :=
  (48 <=? nat_of_ascii c)%nat && (nat_of_ascii c <=? 57)%nat.

Fixpoint allDigits (s : string) : bool :=
  match s with
  | EmptyString => true
  | String c s' => isDigit c && allDigits s'
  end.

(** Reading a string of decimal digits back ([Number(s)] on digits). *)
Fixpoint readDigits (acc : Z) (s : string) : Z :=
  match s with
  | EmptyString => acc
  | String c s' => readDigits (10 * acc + (Z.of_nat (nat_of_ascii c) - 48)) s'
  end.

(** ** Numbers

    A JavaScript number is a binary64 floating-point number.  The
    numbers that occur below are finite, and a number is kept as the
    rational that is its exact value; an arithmetic operation is the
    exact operation followed by [round64], the rounding of the result
    to the nearest binary64 number, ties going to the even
    significand.  Overflow does not occur at the magnitudes involved
    and is not modelled. *)

Definition pow2 (k : Z) : Q := (2 ^ k)%Q.

(** For a positive [x], the exponent [e] with [2^e <= x < 2^(e+1)]:
    the bit lengths of numerator and denominator give it up to one. *)
Definition ilog2 (x : Q) : Z :=
  let e := Z.log2 (Qnum x) - Z.log2 (Zpos (Qden x)) in
  if Qle_bool (pow2 e) x then e else e - 1.

(** The nearest integer, the even one of the two when they are equally
    near. *)
Definition roundHalfEven (y : Q) : Z :=
  let f := Qfloor y in
  match (y - inject_Z f ?= 1 # 2)%Q with
  | Lt => f
  | Gt => f + 1
  | Eq => if Z.even f then f else f + 1
  end.

(** The exponent of the unit in the last place: 53 significant bits,
    and no exponent below that of the subnormal numbers. *)
Definition ulpExponent (x : Q) : Z := Z.max (ilog2 (Qabs x)) (-1022) - 52.

Definition round64 (x : Q) : Q :=
  if Qeq_bool x 0 then 0%Q
  else (inject_Z (roundHalfEven (x / pow2 (ulpExponent x)))
        * pow2 (ulpExponent x))%Q.

(** The value of a finite number in the Standard Library's
    specification of IEEE 754 arithmetic, against which [round64] is
    checked below. *)
Definition valueOf (f : spec_float) : Q :=
  match f with
  | S754_finite sign m e =>
      ((if sign then -1 else 1) * inject_Z (Zpos m) * pow2 e)%Q
  | _ => 0%Q
  end.

(* ------------------------------------------------------------------ *)
(** ** The OTP service: [/send-otp], [/verify-otp], the sweep          *)
(* ------------------------------------------------------------------ *)

Module Otp.

(** [otpStore[email] = { otp, expiresAt }]. *)
Record OtpRecord : Type := { otp : string; expiresAt : Z }.

(** [const otpStore = {}]: a plain object, whose prototype is
    [Object.prototype] to begin with.  Every address but one names an
    own property of the object, created by the assignment
    [otpStore[email] = ...].  The exception is [__proto__]: that
    assignment runs the setter [Object.prototype] has under this name,
    which makes the record the prototype of the store and creates no
    own property.  The map holds both: the entry under [__proto__] is
    the record in prototype position, if an issuance put one there;
    every other entry is an own property.  So the assignment is an
    insertion into the map for every key; reading, deleting and
    listing the keys are not the map's operations, and follow. *)
Abbreviation OtpStore := (gmap string OtpRecord).

(** The names of the properties of [Object.prototype]. *)
Definition objectPrototype : list string :=
  ["constructor"; "__defineGetter__"; "__defineSetter__"; "hasOwnProperty";
   "__lookupGetter__"; "__lookupSetter__"; "isPrototypeOf";
   "propertyIsEnumerable"; "toString"; "valueOf"; "__proto__";
   "toLocaleString"].

(** What [otpStore[key]] evaluates to: [undefined], a record, or a
    value of another kind, of which the handlers see the truthiness
    only, since it has neither [expiresAt] nor [otp]. *)
Inductive Found : Type :=
| Undefined
| Held (record : OtpRecord)
| Foreign (isTruthy : bool).

(** What the prototype chain supplies under [key]: a field of the
    record in prototype position (its [otp], a string, or its
    [expiresAt], a number), or a member of [Object.prototype] (a
    function; under [__proto__], the prototype object itself). *)
Definition inherited (store : OtpStore) (key : string) : Found :=
  match store !! "__proto__" with
  | Some r =>
      if String.eqb key "otp" then Foreign (negb (String.eqb (otp r) ""))
      else if String.eqb key "expiresAt" then Foreign (negb (expiresAt r =? 0))
      else if existsb (String.eqb key) objectPrototype then Foreign true
      else Undefined
  | None =>
      if existsb (String.eqb key) objectPrototype then Foreign true
      else Undefined
  end.

(** [otpStore[key]]: the own property, or the record in prototype
    position when the key is [__proto__], or else what is inherited. *)
Definition read (store : OtpStore) (key : string) : Found :=
  match store !! key with
  | Some r => Held r
  | None => inherited store key
  end.

(** [delete otpStore[key]] removes an own property; the store has none
    under [__proto__], and its prototype stays. *)
Definition unset (key : string) (store : OtpStore) : OtpStore :=
  if String.eqb key "__proto__" then store else delete key store.

(** [Object.keys(otpStore)]: the names of the own properties. *)
Definition ownKeys (store : OtpStore) : list string :=
  List.filter (fun k => negb (String.eqb k "__proto__"))
              (map fst (map_to_list store)).

(** What the handler answers: the HTTP status and the JSON body
    [{ success, message }]. *)
Record Reply : Type := { status : Z; success : bool; message : string }.

(** [res.json(body)] answers with status 200,
    [res.status(c).json(body)] with [c]. *)
Definition json (ok : bool) (msg : string) : Reply :=
  {| status := 200; success := ok; message := msg |}.
Definition statusJson (c : Z) (ok : bool) (msg : string) : Reply :=
  {| status := c; success := ok; message := msg |}.

(** The two OTP senders of the repository: the merged server (and its
    twin among the unnamed files), and the stand-alone [mail.js]. *)
Inductive Sender : Type := Merged | MailJs.

(** What the runtime supplies to one [/send-otp] request:
    [Date.now()], [Math.random()], how [sendMail] settles, whether the
    document store was initialised ([db] non-null) and how [addDoc]
    settles.  In [mail.js] the store is always initialised.  [random]
    is the exact value of the binary64 number drawn. *)
Record World : Type := {
  now : Z;
  random : Q;
  sendMail : Settled;
  db : bool;
  addDoc : Settled
}.

(** [Math.floor(100000 + Math.random() * 900000)]: the product and the
    sum are rounded; the floor of a binary64 number is exact. *)
Definition otpNumber (random : Q) : Z :=
  Qfloor (round64 (100000 + round64 (random * 900000))).

(** [Math.floor(100000 + Math.random() * 900000).toString()]. *)
Definition generateOtp (random : Q) : string :=
  toString (otpNumber random).

(** The record an issuance writes:
    [{ otp, expiresAt: Date.now() + 5 * 60 * 1000 }]. *)
Definition fresh (w : World) : OtpRecord :=
  {| otp := generateOtp (random w); expiresAt := now w + 5 * 60 * 1000 |}.

(** The audit write that follows a delivered mail.  [true]: the
    handler goes on to answer success; [false]: the rejection of
    [addDoc] escaped to the handler's [catch].

    Merged: [if (db) { try { await addDoc(..) } catch (e) { warn } }].
    mail.js: [await addDoc(..)], inside the outer [try] only. *)
Definition audit (v : Sender) (w : World) : bool :=
  match v with
  | Merged =>
      if db w then
        match addDoc w with
        | Resolved => true
        | Rejected _ => true   (* caught on the spot: [console.warn] *)
        end
      else true
  | MailJs =>
      match addDoc w with
      | Resolved => true
      | Rejected _ => false
      end
  end.

(** [app.post("/send-otp", ...)]. *)
Definition sendOtp (v : Sender) (store : OtpStore) (email : option string)
    (w : World) : OtpStore * Reply :=
  match email with
  | Some e =>
      if truthy email then
        let store' := <[ e := fresh w ]> store in   (* otpStore[email] = ... *)
        match sendMail w with
        | Resolved =>
            if audit v w
            then (store', json true "OTP sent")
            else (store', statusJson 500 false "Failed to send OTP")
        | Rejected _ => (store', statusJson 500 false "Failed to send OTP")
        end
      else (store, statusJson 400 false "Email required")
  | None => (store, statusJson 400 false "Email required")
  end.

(** [app.post("/verify-otp", ...)]; [now] is [Date.now()]. *)
Definition verifyOtp (store : OtpStore) (email code : option string)
    (now : Z) : OtpStore * Reply :=
  match email, code with
  | Some e, Some c =>
      if negb (truthy email) || negb (truthy code)
      then (store, statusJson 400 false "Missing email or otp")
      else
        match read store e with
        | Held record =>
            if now >? expiresAt record
            then (unset e store,
                  json false "OTP expired. Please request a new one.")
            else if negb (String.eqb (otp record) c)
            then (store, json false "Invalid OTP. Please try again.")
            else (unset e store, json true "OTP verified")
        | Foreign true =>
            (* [record.expiresAt] and [record.otp] are [undefined]:
               [Date.now() > undefined] is false, [undefined !== otp] true *)
            (store, json false "Invalid OTP. Please try again.")
        | Foreign false | Undefined =>                           (* [!record] *)
            (store, json false "OTP not found. Request a new code.")
        end
  | _, _ => (store, statusJson 400 false "Missing email or otp")
  end.

(** The body of the [setInterval] callback: the keys are listed once
    ([Object.keys]), then each key whose record has expired is
    deleted from the store being walked.  A listed key is an own
    property, so that what is read under it is its record. *)
Definition sweepKey (now : Z) (store : OtpStore) (e : string) : OtpStore :=
  match read store e with
  | Held record => if expiresAt record <=? now then unset e store else store
  | _ => store
  end.

(** The order in which the keys are walked does not matter to the
    result: a pass touches the entry of its own key only
    ([sweep_lookup] below). *)
Definition sweep (now : Z) (store : OtpStore) : OtpStore :=
  foldl (sweepKey now) store (ownKeys store).

(** One event of the service's life, and the store after it. *)
Inductive Op : Type :=
| SendOtp (v : Sender) (email : option string) (w : World)
| VerifyOtp (email code : option string) (now : Z)
| Sweep (now : Z).

Definition step (store : OtpStore) (op : Op) : OtpStore :=
  match op with
  | SendOtp v email w => fst (sendOtp v store email w)
  | VerifyOtp email code t => fst (verifyOtp store email code t)
  | Sweep t => sweep t store
  end.

Definition run (store : OtpStore) (ops : list Op) : OtpStore :=
  foldl step store ops.

(** The record the most recent issuance for [email] wrote, if the
    trace holds an issuance for that address. *)
Definition issued (email : string) (op : Op) : option OtpRecord :=
  match op with
  | SendOtp _ (Some e) w =>
      if truthy (Some e) && String.eqb e email then Some (fresh w) else None
  | _ => None
  end.

Fixpoint lastIssued (email : string) (ops : list Op) : option OtpRecord :=
  match ops with
  | [] => None
  | op :: ops' =>
      match lastIssued email ops' with
      | Some r => Some r
      | None => issued email op
      end
  end.

(** *** Vocabulary of the statements *)

(** The four answers of [/verify-otp] to a request that has both
    fields. *)
Definition notFound : Reply := json false "OTP not found. Request a new code.".
Definition expired : Reply := json false "OTP expired. Please request a new one.".
Definition mismatch : Reply := json false "Invalid OTP. Please try again.".
Definition verified : Reply := json true "OTP verified".

(** *** Sample inputs *)

(** A store holding one record, for the examples below. *)
Definition oneRecord : OtpStore :=
  {[ "u@x.com" := {| otp := "123456"; expiresAt := 300000 |} ]}.

Definition world0 : World :=
  {| now := 0; random := 0; sendMail := Resolved; db := true;
     addDoc := Resolved |}.
Definition world1 : World :=
  {| now := 1000; random := 1 # 2; sendMail := Resolved; db := true;
     addDoc := Resolved |}.

Definition worldDown : World :=
  {| now := 1000; random := 1 # 2; sendMail := Rejected "ECONNREFUSED";
     db := true; addDoc := Resolved |}.

Definition worldAuditDown : World :=
  {| now := 1000; random := 1 # 2; sendMail := Resolved; db := true;
     addDoc := Rejected "PERMISSION_DENIED" |}.

(** The largest binary64 number below one. *)
Definition largestDraw : Q := (1 - pow2 (-53))%Q.

(** A store whose prototype is a record: a code was issued to the
    address [__proto__]. *)
Definition protoRecord : OtpStore :=
  {[ "__proto__" := {| otp := "123456"; expiresAt := 300000 |} ]}.

End Otp.

(* ------------------------------------------------------------------ *)
(** ** The retrying call: [fetchWithBackoff]                           *)
(* ------------------------------------------------------------------ *)

Module Backoff.

(** What [response.json()] settles to: the parsed value, kept as its
    JSON text (so that [JSON.stringify] gives the text back), or a
    rejection when the body is not JSON. *)
Inductive Body : Type :=
| Json (text : string)
| NotJson (reason : string).

(** What one [await fetch(url, ...)] settles to: a rejection (the
    network-level failure) or a response with its status and body. *)
Inductive Fetched : Type :=
| NetworkError (reason : string)
| Response (status : Z) (body : Body).

(** [response.ok]: a status in the range 200..299. *)
Definition ok (status : Z) : bool := (200 <=? status) && (status <=? 299).

(** [status === 429 || (status >= 500 && status < 600)]. *)
Definition retryable (status : Z) : bool :=
  (status =? 429) || ((500 <=? status) && (status <? 600)).

(** The function is written twice: in the template generator
    ([Standalone]) and in the merged server and its twin ([Unified]).
    The two differ in their messages only. *)
Inductive Flavour : Type := Standalone | Unified.

(** [JSON.stringify({ error: { message: ... } })], the stand-in for an
    error body that is not JSON. *)
Definition unparsed (v : Flavour) : string :=
  "{" ++ dquote ++ "error" ++ dquote ++ ":{" ++ dquote ++ "message" ++ dquote
      ++ ":" ++ dquote ++
      match v with
      | Standalone => "Failed to parse error response"
      | Unified => "Unknown error"
      end ++ dquote ++ "}}".

(** The message of the error thrown after the loop. *)
Definition exhausted (v : Flavour) : string :=
  match v with
  | Standalone => "Failed to fetch from Gemini API after max retries."
  | Unified => "Failed after max retries"
  end.

(** How the call ends: it returns the parsed body, or it throws an
    [Error] whose message is kept. *)
Inductive Outcome : Type :=
| Returned (json : string)
| Thrown (message : string).

(** The outcome together with what the call did on the way: the
    arguments of its [delay(..)] calls, oldest first, and the number of
    [fetch] calls. *)
Record Run : Type := { outcome : Outcome; delays : list Z; calls : nat }.

(** The [while] loop.  [fetch k] is what the [k]-th [fetch] of this call
    settles to; [attempt] and [backoffTime] are the loop's variables.
    Each pass that does not leave the function increments [attempt], so
    [maxRetries - attempt] passes of fuel are enough ([loop_total]). *)
Fixpoint loop (v : Flavour) (fetch : nat -> Fetched) (maxRetries : Z)
    (fuel : nat) (attempt backoffTime : Z) (calls : nat) (delays : list Z)
    : option Run :=
  if attempt <? maxRetries then
    match fuel with
    | O => None
    | S fuel' =>
        (* await delay(backoffTime); backoffTime *= 2; attempt++ *)
        let again :=
          loop v fetch maxRetries fuel' (attempt + 1) (backoffTime * 2)
               (S calls) (delays ++ [backoffTime]) in
        (* catch (error) { if (attempt >= maxRetries - 1) throw error; ... } *)
        let caught (message : string) :=
          if attempt >=? maxRetries - 1
          then Some {| outcome := Thrown message; delays := delays;
                       calls := S calls |}
          else again in
        match fetch calls with
        | NetworkError reason => caught reason
        | Response status body =>
            if ok status then
              match body with
              | Json text =>
                  Some {| outcome := Returned text; delays := delays;
                          calls := S calls |}
              | NotJson reason => caught reason
              end
            else if retryable status then again
            else
              (* throw new Error(JSON.stringify(errorData)), inside the try *)
              caught match body with
                     | Json text => text
                     | NotJson _ => unparsed v
                     end
        end
    end
  else Some {| outcome := Thrown (exhausted v); delays := delays;
               calls := calls |}.

(** [fetchWithBackoff(url, payload, maxRetries = 5)]. *)
Definition fetchWithBackoff (v : Flavour) (fetch : nat -> Fetched)
    (maxRetries : Z) : option Run :=
  loop v fetch maxRetries (Z.to_nat maxRetries) 0 1000 0 [].

(** *** Vocabulary of the statements *)

(** The delays of the policy: one second, doubling. *)
Definition schedule (n : nat) : list Z :=
  map (fun k => 1000 * 2 ^ Z.of_nat k) (seq 0 n).

(** *** Sample inputs *)

(** The endpoint answers 400 once, then 200. *)
Definition badRequestThenOk (k : nat) : Fetched :=
  match k with
  | O => Response 400 (Json "{}")
  | _ => Response 200 (Json "[]")
  end.

End Backoff.

(* ------------------------------------------------------------------ *)
(** ** Text: [startsWith], [includes], [replace]                       *)
(* ------------------------------------------------------------------ *)

Module Text.

(** [s.startsWith(p)], returning what follows the prefix. *)
Fixpoint stripPrefix (p s : string) : option string :=
  match p with
  | EmptyString => Some s
  | String a p' =>
      match s with
      | String b s' => if Ascii.eqb a b then stripPrefix p' s' else None
      | EmptyString => None
      end
  end.

(** [s.includes(p)]: [p] starts at some position of [s]. *)
Fixpoint includes (p s : string) : bool :=
  match stripPrefix p s with
  | Some _ => true
  | None =>
      match s with
      | EmptyString => false
      | String _ s' => includes p s'
      end
  end.

(** Whether the character [c] occurs in [s]. *)
Fixpoint hasChar (c : ascii) (s : string) : bool :=
  match s with
  | EmptyString => false
  | String d s' => Ascii.eqb c d || hasChar c s'
  end.

(** The placeholder, as the pattern [/\[Name\]/g] reads it: the six
    characters, literally. *)
Definition token : string := "[Name]".

(** The replacement text of one match.  [String.prototype.replace]
    with a string as its second argument does not insert that string
    as it is: it expands [$$] to a dollar, [$&] to the matched text,
    [$`] to the text before the match and [$'] to the text after it.
    The pattern has no capture group, so [$1] and the like, and a
    dollar before any other character, stay as they are. *)
Fixpoint getSubstitution (matched before after template : string) : string :=
  match template with
  | EmptyString => EmptyString
  | String c rest =>
      if Ascii.eqb c "$" then
        match rest with
        | String d rest' =>
            if Ascii.eqb d "$" then
              String "$" (getSubstitution matched before after rest')
            else if Ascii.eqb d "&" then
              matched ++ getSubstitution matched before after rest'
            else if Ascii.eqb d "`" then
              before ++ getSubstitution matched before after rest'
            else if Ascii.eqb d "'" then
              after ++ getSubstitution matched before after rest'
            else String "$" (getSubstitution matched before after rest)
        | EmptyString => "$"
        end
      else String c (getSubstitution matched before after rest)
  end.

Lemma stripPrefix_length (p s r : string) :
  stripPrefix p s = Some r ->
  String.length s = (String.length p + String.length r)%nat.
Proof.
  revert s; induction p as [|a p IH]; intros s; simpl.
  - intros [= ->]. reflexivity.
  - destruct s as [|b s]; [discriminate|].
    destruct (Ascii.eqb a b); [|discriminate].
    intros H. apply IH in H. simpl. lia.
Qed.

Definition inspect {A : Type} (a : A) : {b : A | a = b} := exist _ a eq_refl.

(** [s.replace(/\[Name\]/g, template)], from the position that follows
    [before]: the matches are found from left to right, each search
    starting where the previous match ended; the text between the
    matches is copied. *)
Equations? replaceAll (template before s : string) : string
  by wf (String.length s) lt :=
  replaceAll template before s with inspect (stripPrefix token s) := {
    | exist _ (Some after) _ =>
        getSubstitution token before after template
          ++ replaceAll template (before ++ token) after
    | exist _ None _ with s := {
        | EmptyString => EmptyString
        | String c s' =>
            String c (replaceAll template (before ++ String c "") s') } }.
Proof.
  - apply stripPrefix_length in e. simpl in e. lia.
  - simpl. lia.
Qed.

(** Whether [s] holds one of the patterns that [replace] expands in a
    replacement string. *)
Definition hasPattern (s : string) : bool :=
  includes "$$" s || includes "$&" s || includes "$`" s || includes "$'" s.

(** [html.replace(/\[Name\]/g, name)]. *)
Definition replaceName (name html : string) : string :=
  replaceAll name "" html.

(** [segs.join(sep)]; the empty list does not occur below. *)
Fixpoint join (sep : string) (segs : list string) : string :=
  match segs with
  | [] => ""
  | [s] => s
  | s :: rest => s ++ sep ++ join sep rest
  end.

End Text.

(* ------------------------------------------------------------------ *)
(** ** Share links: [normalizeImageUrl]                                *)
(* ------------------------------------------------------------------ *)

Module Url.
Import Text.

(** What the function reads of a parsed [URL] object.  [searchParams]
    lists the query's name and value pairs in their order, as the
    parser decoded them. *)
Record URL : Type := {
  hostname : string;
  pathname : string;
  searchParams : list (string * string)
}.

(** [[^/]+] from the start of [s]: the longest run of characters other
    than the slash. *)
Fixpoint segment (s : string) : string :=
  match s with
  | EmptyString => EmptyString
  | String c s' => if Ascii.eqb c "/" then EmptyString else String c (segment s')
  end.

(** [pathname.match(/\/d\/([^/]+)/)]: the first group of the leftmost
    match, [None] when there is no match.  A position matches when the
    text there is [/d/] followed by at least one character that is not
    a slash. *)
Fixpoint matchD (s : string) : option string :=
  match s with
  | EmptyString => None
  | String _ s' =>
      match stripPrefix "/d/" s with
      | Some rest =>
          match segment rest with
          | EmptyString => matchD s'
          | m1 => Some m1
          end
      | None => matchD s'
      end
  end.

(** [searchParams.get(name)]: the value of the first pair of that
    name, [None] for [null]. *)
Fixpoint get (name : string) (params : list (string * string)) : option string :=
  match params with
  | [] => None
  | (k, v) :: rest => if String.eqb k name then Some v else get name rest
  end.

Definition directView (id : string) : string :=
  "https://drive.google.com/uc?export=view&id=" ++ id.

Section Normalize.

(** [new URL(url)]: the parsed URL, or [None] when the constructor
    throws.  The parser is the runtime's. *)
Variable parseURL : string -> option URL.

Definition normalizeImageUrl (url : string) : string :=
  match parseURL url with
  | None => url                                    (* catch { return url } *)
  | Some u =>
      if includes "drive.google.com" (hostname u) then
        (* let id = null; if (m && m[1]) id = m[1]; *)
        let m := matchD (pathname u) in
        let id := if truthy m then m else None in
        (* if (!id) id = u.searchParams.get("id"); *)
        let id := if truthy id then id else get "id" (searchParams u) in
        match id with
        | Some i => if truthy id then directView i else url
        | None => url
        end
      else url
  end.

End Normalize.

(** *** Vocabulary of the statements *)

(** The three shapes of share link the source lists, read off the
    parsed URL: the identifier is a path segment after [/file/d/], or
    the value of the [id] parameter of [/open] or of [/uc]. *)
Inductive Supplies (u : URL) (id : string) : Prop :=
| FromFilePath :
    pathname u = "/file/d/" ++ id ++ "/view" -> hasChar "/" id = false ->
    Supplies u id
| FromOpen :
    pathname u = "/open" -> get "id" (searchParams u) = Some id -> Supplies u id
| FromUc :
    pathname u = "/uc" -> get "id" (searchParams u) = Some id -> Supplies u id.

(** *** Sample inputs *)

(** What Node's parser answers on seven inputs: the three shapes of
    share link, a link to another host, text that is no URL, and two
    links whose identifier is written with a percent escape.  The
    parser keeps an escape of the path as it is written and decodes
    the value of a query parameter. *)
Definition nodeParse (url : string) : option URL :=
  if String.eqb url "https://drive.google.com/file/d/a%20b/view" then
    Some {| hostname := "drive.google.com"; pathname := "/file/d/a%20b/view";
            searchParams := [] |}
  else if String.eqb url "https://drive.google.com/open?id=a%20b" then
    Some {| hostname := "drive.google.com"; pathname := "/open";
            searchParams := [("id", "a b")] |}
  else if String.eqb url "https://drive.google.com/file/d/1AbC_d-9/view?usp=sharing" then
    Some {| hostname := "drive.google.com"; pathname := "/file/d/1AbC_d-9/view";
            searchParams := [("usp", "sharing")] |}
  else if String.eqb url "https://drive.google.com/open?id=1AbC_d-9" then
    Some {| hostname := "drive.google.com"; pathname := "/open";
            searchParams := [("id", "1AbC_d-9")] |}
  else if String.eqb url "https://drive.google.com/uc?export=download&id=1AbC_d-9" then
    Some {| hostname := "drive.google.com"; pathname := "/uc";
            searchParams := [("export", "download"); ("id", "1AbC_d-9")] |}
  else if String.eqb url "https://example.com/logo.png" then
    Some {| hostname := "example.com"; pathname := "/logo.png";
            searchParams := [] |}
  else None.

End Url.

(* ------------------------------------------------------------------ *)
(** ** The bulk sender: [/send-csv]                                    *)
(* ------------------------------------------------------------------ *)

Module Bulk.
Import Text.

(** One parsed CSV line: header name to cell. *)
Abbreviation Row := (gmap string string).

(** [r.email || r.Email]. *)
Definition resolveEmail (r : Row) : option string :=
  orElse (r !! "email") (r !! "Email").

(** [r.name || r.Name || dflt]; [dflt] is the empty string in
    [/send-csv] and ["User"] in [/send-mails]. *)
Definition resolveName (dflt : string) (r : Row) : string :=
  match orElse (orElse (r !! "name") (r !! "Name")) (Some dflt) with
  | Some name => name
  | None => ""
  end.

(** [html.replace(/\[Name\]/g, name)] for one row. *)
Definition personalize (dflt : string) (r : Row) (html : string) : string :=
  replaceName (resolveName dflt r) html.

(** The two uses: [/send-csv] resolves a missing name to the empty
    string, [/send-mails] to ["User"]. *)
Definition personalizeCsv : Row -> string -> string := personalize "".
Definition personalizeMails : Row -> string -> string := personalize "User".

(** An attachment object handed to the transport: an inline image
    (with its bytes and content id) or an uploaded file (by path). *)
Inductive Attachment : Type :=
| Inline (filename : string) (content : list Byte.byte) (cid contentType : string)
| Generic (filename path contentType : string).

(** The argument of [sendMail]. *)
Record Mail : Type := {
  from : string;
  to : string;
  subject : string;
  html : string;
  attachments : option (list Attachment)     (* [None]: [undefined] *)
}.

(** The two [/send-csv] handlers: the stand-alone bulk sender, which
    wraps the body together with the logo and the banner, and the one of
    the merged server, which sends the body as it is, forwards the
    uploaded attachments and keeps a [details] list. *)
Inductive Handler : Type := MailSender | MergedSender.

(** What the loop reads of the request once the request is validated. *)
Record Batch : Type := {
  recipients : list Row;
  batchSubject : string;
  batchHtml : string;
  fromName : string;
  delayMs : option Z;              (* [None]: [NaN] *)
  logoUrl : string;
  bannerUrl : string;
  logoCid : string;
  bannerCid : string;
  hasLogoFile : bool;
  hasBannerFile : bool;
  inlineAttachments : list Attachment;
  genericAttachments : list Attachment
}.

Definition img (src alt width : string) : string :=
  "<img src=" ++ dquote ++ src ++ dquote ++ " alt=" ++ dquote ++ alt ++ dquote
    ++ " width=" ++ dquote ++ width ++ dquote ++ "/>".

(** The template literal of the stand-alone sender, line by line: each
    line of the literal starts with the indentation it has in the
    source. *)
Definition newline : string := String "010" "".

Fixpoint spaces (n : nat) : string :=
  match n with
  | O => ""
  | S n' => String " " (spaces n')
  end.

Definition wrapped (b : Batch) (body : string) : string :=
  newline
    ++ spaces 10 ++ "<div style=" ++ dquote
    ++ "font-family: Arial, sans-serif; padding: 15px; line-height: 1.5;"
    ++ dquote ++ ">" ++ newline
    ++ spaces 12
    ++ (if negb (String.eqb (logoUrl b) "")
        then img (logoUrl b) "Intellia Logo" "120" ++ "<br><br>"
        else if hasLogoFile b
        then img ("cid:" ++ logoCid b) "Intellia Logo" "120" ++ "<br><br>"
        else "")
    ++ newline
    ++ spaces 12 ++ body ++ newline
    ++ spaces 12
    ++ (if negb (String.eqb (bannerUrl b) "")
        then "<br><br>" ++ img (bannerUrl b) "Banner" "600"
        else if hasBannerFile b
        then "<br><br>" ++ img ("cid:" ++ bannerCid b) "Banner" "600"
        else "")
    ++ newline
    ++ spaces 10 ++ "</div>" ++ newline
    ++ spaces 8.

Definition personalizedHtml (v : Handler) (b : Batch) (r : Row) : string :=
  match v with
  | MailSender => wrapped b (personalizeCsv r (batchHtml b))
  | MergedSender => personalizeCsv r (batchHtml b)
  end.

(** The attachments of one message.  The copy the source makes of each
    inline attachment ([Buffer.from]) is the same value. *)
Definition attachmentsForSend (v : Handler) (b : Batch) : option (list Attachment) :=
  match v with
  | MailSender => Some (inlineAttachments b)
  | MergedSender =>
      let all := (inlineAttachments b ++ genericAttachments b)%list in
      if (List.length all =? 0)%nat then None else Some all
  end.

(** [`"${fromName}" <${user}>`]. *)
Definition sender (fromName user : string) : string :=
  dquote ++ fromName ++ dquote ++ " <" ++ user ++ ">".

Definition mailFor (v : Handler) (user : string) (b : Batch) (r : Row)
    (email : string) : Mail :=
  {| from := sender (fromName b) user;
     to := email;
     subject := batchSubject b;
     html := personalizedHtml v b r;
     attachments := attachmentsForSend v b |}.

(** [results]: the counters, the failure list [{ email, error }] and,
    in the merged server, the [details] list. *)
Record Failure : Type := { email : string; error : string }.

Inductive Detail : Type :=
| DetailSent (email : string)
| DetailFailed (email error : string).

Record Results : Type := {
  sent : nat;
  failed : nat;
  failures : list Failure;
  details : list Detail
}.

(** The state of the loop: [results], and what the loop did so far, the
    mails handed to the transport with the way each settled, and the
    delays awaited. *)
Record Progress : Type := {
  results : Results;
  log : list (Mail * Settled);
  pauses : list Z
}.

Definition start : Progress :=
  {| results := {| sent := 0; failed := 0; failures := []; details := [] |};
     log := []; pauses := [] |}.

(** The body of [try { ... await sendMail(..) ... } catch (err) { ... }]. *)
Definition record (v : Handler) (res : Results) (email : string)
    (outcome : Settled) : Results :=
  match outcome with
  | Resolved =>
      {| sent := sent res + 1; failed := failed res; failures := failures res;
         details := match v with
                    | MailSender => details res
                    | MergedSender => details res ++ [DetailSent email]
                    end |}
  | Rejected message =>
      {| sent := sent res; failed := failed res + 1;
         failures := failures res ++ [{| email := email; error := message |}];
         details := match v with
                    | MailSender => details res
                    | MergedSender => details res ++ [DetailFailed email message]
                    end |}
  end.

Section Loop.

(** The transport: how the [k]-th [sendMail] of the batch settles on
    the mail it is given.  [user] is the configured sender address. *)
Variable sendMail : nat -> Mail -> Settled.
Variable user : string.

(** One pass of [for (const r of recipients)]. *)
Definition pass (v : Handler) (b : Batch) (st : Progress) (r : Row) : Progress :=
  match resolveEmail r with
  | Some email =>
      if truthy (resolveEmail r) then
        let mail := mailFor v user b r email in
        let outcome := sendMail (List.length (log st)) mail in
        {| results := record v (results st) email outcome;
           log := log st ++ [(mail, outcome)];
           (* if (delayMs > 0) await delay(delayMs) *)
           pauses := match delayMs b with
                     | Some ms => if ms >? 0 then pauses st ++ [ms] else pauses st
                     | None => pauses st
                     end |}
      else st                                              (* continue *)
  | None => st                                             (* continue *)
  end.

Definition sendLoop (v : Handler) (b : Batch) : Progress :=
  foldl (pass v b) start (recipients b).

End Loop.

(** *** The handler around the loop *)

(** A file as multer stored it. *)
Record Upload : Type := { originalname : string; mimetype : string; path : string }.

(** The multipart request: the files by field, and the text fields. *)
Record Request : Type := {
  csvFile : option Upload;
  logoFile : option Upload;
  bannerFile : option Upload;
  uploads : list Upload;                  (* the [attachments] field *)
  bodySubject : option string;
  bodyHtml : option string;
  bodyLogoUrl : option string;
  bodyBannerUrl : option string;
  bodyDelayMs : option string;
  bodyFromName : option string
}.

(** An [Error] with its optional [code]. *)
Record Failed : Type := { code : option string; reason : string }.

(** What the runtime supplies to one request. *)
Record Runtime : Type := {
  parseURL : string -> option Url.URL;            (* [new URL] *)
  trim : string -> string;                        (* [String.prototype.trim] *)
  parseInt : string -> option Z;                  (* [parseInt(s, 10)], [None]: [NaN] *)
  clock : nat -> Z;                               (* the [k]-th [Date.now()] *)
  readCsv : Upload -> list Row + string;          (* the parsed rows, or the stream's error *)
  processInlineImage : Upload -> string -> string -> Attachment + Failed;
  transport : nat -> Mail -> Settled;             (* [sendMail] *)
  account : string                                (* the sender address *)
}.

Inductive Payload : Type :=
| ErrorBody (error : string) (details : option string)
| SummaryBody (success : bool) (summary : Results).

Record Response : Type := { status : Z; body : Payload }.

Definition valueOr (v : option string) (dflt : string) : string :=
  match orElse v (Some dflt) with
  | Some s => s
  | None => dflt
  end.

(** The answer to an image that could not be prepared. *)
Definition imageError (what : string) (e : Failed) : Response :=
  {| status := 400;
     body := ErrorBody
               (match code e with
                | Some c => if String.eqb c "UNSUPPORTED_IMAGE" then reason e
                            else "Could not prepare " ++ what
                | None => "Could not prepare " ++ what
                end)
               (Some (reason e)) |}.

(** [if (!url && file) attachments.push(await processInlineImage(..))]. *)
Definition inlineImage (rt : Runtime) (url : string) (file : option Upload)
    (cid label : string) : list Attachment + Failed :=
  match file with
  | Some f =>
      if String.eqb url "" then
        match processInlineImage rt f cid label with
        | inl a => inl [a]
        | inr e => inr e
        end
      else inl []
  | None => inl []
  end.

(** Everything the handler does before the loop: it answers early, or
    it has the batch ready.  The removal of the uploaded CSV file that
    goes with two of the early answers is left out. *)
Definition prepare (v : Handler) (rt : Runtime) (req : Request)
    : Response + Batch :=
  match csvFile req with
  | None => inl {| status := 400; body := ErrorBody "CSV file is required." None |}
  | Some csv =>
      let logoUrlRaw := trim rt (valueOr (bodyLogoUrl req) "") in
      let bannerUrlRaw := trim rt (valueOr (bodyBannerUrl req) "") in
      let delay := parseInt rt (valueOr (bodyDelayMs req) "300") in
      let name := valueOr (bodyFromName req) "Team Intellia" in
      if negb (truthy (bodySubject req)) || negb (truthy (bodyHtml req))
      then inl {| status := 400;
                  body := ErrorBody "Missing subject or HTML body." None |}
      else
        match readCsv rt csv with
        | inr reason =>
            (* the promise rejects: the handler's own catch *)
            inl {| status := 500;
                   body := ErrorBody "Internal server error" (Some reason) |}
        | inl rows =>
            if (List.length rows =? 0)%nat
            then inl {| status := 400;
                        body := ErrorBody "No recipients found in CSV." None |}
            else
              let logoCid := "logo-" ++ toString (clock rt 0) in
              let bannerCid := "banner-" ++ toString (clock rt 1) in
              let logoUrl :=
                if String.eqb logoUrlRaw "" then ""
                else Url.normalizeImageUrl (parseURL rt) logoUrlRaw in
              let bannerUrl :=
                if String.eqb bannerUrlRaw "" then ""
                else Url.normalizeImageUrl (parseURL rt) bannerUrlRaw in
              match inlineImage rt logoUrl (logoFile req) logoCid "logo" with
              | inr e => inl (imageError "logo" e)
              | inl logo =>
                  match inlineImage rt bannerUrl (bannerFile req) bannerCid
                                    "banner" with
                  | inr e => inl (imageError "banner" e)
                  | inl banner =>
                      inr {| recipients := rows;
                             batchSubject := default "" (bodySubject req);
                             batchHtml := default "" (bodyHtml req);
                             fromName := name;
                             delayMs := delay;
                             logoUrl := logoUrl;
                             bannerUrl := bannerUrl;
                             logoCid := logoCid;
                             bannerCid := bannerCid;
                             hasLogoFile := bool_decide (is_Some (logoFile req));
                             hasBannerFile := bool_decide (is_Some (bannerFile req));
                             inlineAttachments := (logo ++ banner)%list;
                             genericAttachments :=
                               match v with
                               | MailSender => []
                               | MergedSender =>
                                   map (fun f =>
                                          Generic (valueOr (Some (originalname f))
                                                           "attachment")
                                                  (path f) (mimetype f))
                                       (uploads req)
                               end |}
                  end
              end
        end
  end.

(** [app.post("/send-csv", ...)]: after the loop the uploaded files are
    removed, each removal in a [try] of its own, and the summary is
    answered with [res.json], that is with status 200. *)
Definition sendCsv (v : Handler) (rt : Runtime) (req : Request) : Response :=
  match prepare v rt req with
  | inl early => early
  | inr b =>
      {| status := 200;
         body := SummaryBody true
                   (results (sendLoop (transport rt) (account rt) v b)) |}
  end.

(** *** Vocabulary of the statements *)

(** A row has an email when one of the two keys holds a non-empty
    string. *)
Definition hasEmail (r : Row) : bool :=
  truthy (r !! "email") || truthy (r !! "Email").

(** The address of such a row. *)
Definition emailOf (r : Row) : option string :=
  if hasEmail r then resolveEmail r else None.

(** What the failure list holds for one logged send. *)
Definition failureOf (entry : Mail * Settled) : option Failure :=
  match entry.2 with
  | Rejected message => Some {| email := to entry.1; error := message |}
  | Resolved => None
  end.

Definition delivered (entry : Mail * Settled) : bool :=
  match entry.2 with
  | Resolved => true
  | Rejected _ => false
  end.

(** What holds of the loop's state at every pass. *)
Record Sound (sendMail : nat -> Mail -> Settled) (st : Progress) : Prop := {
  sound_failures : failures (results st) = omap failureOf (log st);
  sound_failed : failed (results st) = List.length (omap failureOf (log st));
  sound_sent : sent (results st) = List.length (filter (fun e => delivered e = true) (log st));
  sound_outcomes :
    forall k m o, log st !! k = Some (m, o) -> o = sendMail k m
}.

(** *** Sample inputs *)

Definition alice : Row := {[ "email" := "a@x.com"; "name" := "A" ]}.
Definition nameless : Row := {[ "email" := "b@x.com" ]}.
Definition noEmail : Row := {[ "name" := "B" ]}.

Definition upload (name : string) : Upload :=
  {| originalname := name; mimetype := "text/csv"; path := "uploads/" ++ name |}.

(** A runtime whose transport rejects every mail. *)
Definition offline (rows : list Row) : Runtime :=
  {| parseURL := fun _ => None;
     trim := fun s => s;
     parseInt := fun _ => Some 300%Z;
     clock := fun _ => 1700000000000%Z;
     readCsv := fun _ => inl rows;
     processInlineImage := fun _ _ _ => inr {| code := None; reason := "unused" |};
     transport := fun _ _ => Rejected "ECONNREFUSED";
     account := "team@x.com" |}.

(** The same with a transport that delivers. *)
Definition online (rows : list Row) : Runtime :=
  {| parseURL := fun _ => None;
     trim := fun s => s;
     parseInt := fun _ => Some 300%Z;
     clock := fun _ => 1700000000000%Z;
     readCsv := fun _ => inl rows;
     processInlineImage := fun _ _ _ => inr {| code := None; reason := "unused" |};
     transport := fun _ _ => Resolved;
     account := "team@x.com" |}.

Definition hello : Request :=
  {| csvFile := Some (upload "list.csv");
     logoFile := None; bannerFile := None; uploads := [];
     bodySubject := Some "Hi"; bodyHtml := Some "Hello [Name]";
     bodyLogoUrl := None; bodyBannerUrl := None;
     bodyDelayMs := None; bodyFromName := None |}.

Definition helloBatch (rows : list Row) : Batch :=
  {| recipients := rows; batchSubject := "Hi"; batchHtml := "Hello [Name]";
     fromName := "Team Intellia"; delayMs := Some 300%Z;
     logoUrl := ""; bannerUrl := "";
     logoCid := "logo-1700000000000"; bannerCid := "banner-1700000000000";
     hasLogoFile := false; hasBannerFile := false;
     inlineAttachments := []; genericAttachments := [] |}.

End Bulk.

(* ------------------------------------------------------------------ *)
(** ** Further string methods and vocabulary                           *)
(* ------------------------------------------------------------------ *)

(** [s.startsWith(p)]. *)
Definition startsWith (p s : string) : bool :=
  match Text.stripPrefix p s with
  | Some _ => true
  | None => false
  end.

(** Whether a fetch ends [fetchWithBackoff] with a result: a 2xx
    response whose body parses. *)
Definition succeeded (f : Backoff.Fetched) : bool :=
  match f with
  | Backoff.Response status (Backoff.Json _) => Backoff.ok status
  | _ => false
  end.

(** An endpoint that is out of reach once, overloaded once, and then
    answers. *)
Definition flaky (k : nat) : Backoff.Fetched :=
  match k with
  | O => Backoff.NetworkError "ECONNRESET"
  | S O => Backoff.Response 503 (Backoff.NotJson "Unexpected token <")
  | _ => Backoff.Response 200 (Backoff.Json "{}")
  end.

(** Whether an event of the OTP service is a request about the address
    [email]. *)
Definition concerns (email : string) (op : Otp.Op) : bool :=
  match op with
  | Otp.SendOtp _ (Some e) _ => String.eqb e email
  | Otp.VerifyOtp (Some e) _ _ => String.eqb e email
  | _ => false
  end.

(** Whether an event is a sweep that removes the record [r]. *)
Definition sweeps (r : Otp.OtpRecord) (op : Otp.Op) : bool :=
  match op with
  | Otp.Sweep t => Otp.expiresAt r <=? t
  | _ => false
  end.

(** What the [details] list of the merged server holds for one logged
    send. *)
Definition detailOf (entry : Bulk.Mail * Settled) : Bulk.Detail :=
  match entry.2 with
  | Resolved => Bulk.DetailSent (Bulk.to entry.1)
  | Rejected message => Bulk.DetailFailed (Bulk.to entry.1) message
  end.

(** The wait that follows one send of a batch:
    [if (delayMs > 0) await delay(delayMs)]. *)
Definition pauseOf (b : Bulk.Batch) : list Z :=
  match Bulk.delayMs b with
  | Some ms => if ms >? 0 then [ms] else []
  | None => []
  end.

(** A request that brings both a link and a file for the logo and for
    the banner. *)
Definition linksAndFiles : Bulk.Request :=
  {| Bulk.csvFile := Some (Bulk.upload "list.csv");
     Bulk.logoFile := Some (Bulk.upload "logo.webp");
     Bulk.bannerFile := Some (Bulk.upload "banner.webp");
     Bulk.uploads := [];
     Bulk.bodySubject := Some "Hi"; Bulk.bodyHtml := Some "Hello [Name]";
     Bulk.bodyLogoUrl := Some "https://example.com/logo.png";
     Bulk.bodyBannerUrl := Some "https://example.com/banner.png";
     Bulk.bodyDelayMs := None; Bulk.bodyFromName := None |}.

(* ------------------------------------------------------------------ *)
(** ** Inline images: [pickImageMime], [processInlineImage]            *)
(* ------------------------------------------------------------------ *)

Module Image.
Import Text Bulk.

(** The letters [A] to [Z] to lower case, every other character as it
    is: how a pattern of ASCII letters with the flag [i] compares a
    character. *)
Definition lowerAscii (c : ascii) : ascii :=
  let n := nat_of_ascii c in
  if (65 <=? n)%nat && (n <=? 90)%nat then ascii_of_nat (n + 32) else c.

Fixpoint lower (s : string) : string :=
  match s with
  | EmptyString => EmptyString
  | String c s' => String (lowerAscii c) (lower s')
  end.

(** [/^image\/(png|jpe?g|gif)$/i.test(detected)]. *)
Definition isSupported (detected : string) : bool :=
  let d := lower detected in
  String.eqb d "image/png" || String.eqb d "image/jpg"
  || String.eqb d "image/jpeg" || String.eqb d "image/gif".

Section Inline.

(** What the runtime supplies: [path.extname], [path.basename] with
    its second argument, [String.prototype.toLowerCase],
    [fs.readFileSync] (the bytes, or the error it throws) and the
    conversion [sharp(content).png().toBuffer()] behind the dynamic
    import (the bytes, or the message of whatever the [try] caught). *)
Variable extname : string -> string.
Variable basename : string -> string -> string.
Variable toLowerCase : string -> string.
Variable readFileSync : string -> list Byte.byte + Failed.
Variable toPng : list Byte.byte -> list Byte.byte + string.

(** [pickImageMime(filename, fallback)]; [fallback] is the uploaded
    file's [mimetype]. *)
Definition pickImageMime (filename fallback : string) : string :=
  let ext := toLowerCase (extname filename) in
  if truthy (Some fallback) && startsWith "image/" fallback then fallback
  else if String.eqb ext ".png" then "image/png"
  else if String.eqb ext ".jpg" || String.eqb ext ".jpeg" then "image/jpeg"
  else if String.eqb ext ".gif" then "image/gif"
  else if String.eqb ext ".webp" then "image/webp"
  else if String.eqb ext ".svg" then "image/svg+xml"
  else if truthy (Some fallback) && includes "/" fallback then fallback
  else "application/octet-stream".

(** The message of the error thrown when the conversion fails. *)
Definition unsupported (filename detected : string) : string :=
  "Inline image " ++ dquote ++ filename ++ dquote ++ " has unsupported type ("
    ++ detected ++ "). Install 'sharp' or upload PNG/JPG/GIF.".

(** [processInlineImage(file, cidDefault, label)]: the attachment, or
    the error the function throws. *)
Definition processInlineImage (file : Upload) (cidDefault label : string)
    : Attachment + Failed :=
  let filename := valueOr (Some (originalname file)) label in
  let detected := pickImageMime filename (mimetype file) in
  match readFileSync (path file) with
  | inr e => inr e
  | inl content =>
      if isSupported detected
      then inl (Inline filename content cidDefault detected)
      else
        match toPng content with
        | inl pngBuffer =>
            inl (Inline (basename filename (extname filename) ++ ".png")
                        pngBuffer cidDefault "image/png")
        | inr _ =>
            inr {| code := Some "UNSUPPORTED_IMAGE";
                   reason := unsupported filename detected |}
        end
  end.

End Inline.

(** *** Vocabulary of the statements *)

Definition contentTypeOf (a : Attachment) : string :=
  match a with
  | Inline _ _ _ contentType => contentType
  | Generic _ _ contentType => contentType
  end.

(** *** Sample inputs *)

(** An uploaded vector drawing, and a disk that holds four bytes for
    every path. *)
Definition drawing : Upload :=
  {| originalname := "logo.svg"; mimetype := "image/svg+xml";
     path := "uploads/3f2a" |}.

Definition disk (p : string) : list Byte.byte + Failed :=
  inl [Byte.x3c; Byte.x73; Byte.x76; Byte.x67].


(** What [path.extname] and [path.basename] answer on the name of the
    drawing. *)
Definition extnameOfDrawing (p : string) : string := ".svg".
Definition basenameOfDrawing (p ext : string) : string := "logo".



End Image.

(* ------------------------------------------------------------------ *)
(** ** The basic bulk sender: [/send-mails]                            *)
(* ------------------------------------------------------------------ *)

Module Mails.
Import Text Bulk.

(** The request: the file of the field [csvFile] and the two text
    fields. *)
Record Posted : Type := {
  postedFile : option Upload;
  postedSubject : option string;
  postedHtml : option string
}.

Inductive Receipt : Type :=
| Refused (status : Z) (error : string)
| Done (success : bool) (message : string).

(** What the loop did: the mails handed to the transport with the way
    each settled, and the addresses for which a [sent_mails] document
    was written. *)
Record Trace : Type := {
  handed : list (Mail * Settled);
  logged : list string
}.

Definition idle : Trace := {| handed := []; logged := [] |}.

(** The check mark that opens the success message, U+2705, in UTF-8. *)
Definition checkMark : string := String "226" (String "156" (String "133" "")).

Section Handler.

(** The transport, the configured sender address, and whether the
    document store is there.  A rejected [addDoc] is caught on the spot
    and only logged, so how it settles is not an input. *)
Variable sendMail : nat -> Mail -> Settled.
Variable user : string.
Variable db : bool.

(** One pass of [for (const rec of recipients)]. *)
Definition deliver (subject html : string) (st : Trace) (rec : Row) : Trace :=
  match resolveEmail rec with
  | Some email =>
      if truthy (resolveEmail rec) then
        let mail := {| from := sender "Mail Buddy" user;
                       to := email;
                       subject := subject;
                       html := personalizeMails rec html;
                       attachments := None |} in
        let outcome := sendMail (List.length (handed st)) mail in
        {| handed := handed st ++ [(mail, outcome)];
           logged := match outcome with
                     | Resolved => if db then logged st ++ [email] else logged st
                     | Rejected _ => logged st
                     end |}
      else st                                              (* continue *)
  | None => st                                             (* continue *)
  end.

(** [app.post("/send-mails", ...)], from the point where the CSV
    stream has ended with the rows [recipients].  Without a file,
    [req.file.path] throws before the stream is opened and the outer
    [catch] answers.  The removal of the uploaded file is left out. *)
Definition sendMails (req : Posted) (recipients : list Row) : Receipt * Trace :=
  match postedFile req with
  | None => (Refused 500 "Failed to send emails", idle)
  | Some _ =>
      match postedSubject req, postedHtml req with
      | Some subject, Some html =>
          if negb (truthy (postedSubject req)) || negb (truthy (postedHtml req))
          then (Refused 400 "Missing subject or HTML content.", idle)
          else
            (Done true
               (checkMark ++ " Sent "
                  ++ toString (Z.of_nat (List.length recipients))
                  ++ " emails successfully."),
             foldl (deliver subject html) idle recipients)
      | _, _ => (Refused 400 "Missing subject or HTML content.", idle)
      end
  end.

End Handler.

(** *** Vocabulary of the statements *)

(** The mail of one row: [/send-mails] sends the same subject to
    every address, with the body personalised for the row. *)
Definition mailOf (user subject html : string) (r : Row) (email : string) : Mail :=
  {| from := sender "Mail Buddy" user;
     to := email;
     subject := subject;
     html := personalizeMails r html;
     attachments := None |}.

(** *** Sample inputs *)


End Mails.

(* ------------------------------------------------------------------ *)
(** ** The template generator: [/generate-email]                       *)
(* ------------------------------------------------------------------ *)

Module Generate.
Import Text Backoff.

(** What stands in for a model answer without text. *)
Definition noContent : string :=
  "<!DOCTYPE html><html><body><p>Error: No content generated by the model.</p></body></html>".

Definition fence : string := "```".
Definition htmlFence : string := "```html".

(** [s.endsWith(p)]. *)
Definition endsWith (p s : string) : bool :=
  (String.length p <=? String.length s)%nat
  && String.eqb (substring (String.length s - String.length p)
                           (String.length p) s) p.

(** [s.substring(n)] and [s.substring(0, n)], for [n] within the
    string. *)
Definition substringFrom (n : nat) (s : string) : string :=
  substring n (String.length s - n) s.

Definition substringTo (n : nat) (s : string) : string := substring 0 n s.

(** The template generator's clean-up, on the trimmed output:
    [if (startsWith("```html")) substring(7)],
    [if (startsWith("```")) substring(3)],
    [if (endsWith("```")) substring(0, length - 3)]. *)
Definition unfence (s : string) : string :=
  let s := if startsWith htmlFence s then substringFrom 7 s else s in
  let s := if startsWith fence s then substringFrom 3 s else s in
  if endsWith fence s then substringTo (String.length s - 3) s else s.

(** The pattern's second alternative, [```$], from the position the
    scan has reached: it matches where three backticks are all that is
    left of the string. *)
Fixpoint dropClosing (s : string) : string :=
  match s with
  | EmptyString => EmptyString
  | String c s' => if String.eqb s fence then EmptyString else String c (dropClosing s')
  end.

(** [s.replace(/^```html|```$/g, "")]: the first alternative can match
    at the start of the string only; the scan then goes on behind that
    match, or from the start when there is none. *)
Definition replaceFences (s : string) : string :=
  match stripPrefix htmlFence s with
  | Some rest => dropClosing rest
  | None => dropClosing s
  end.

(** What the handler answers, and what the call to the model cost:
    the waits and the number of fetches. *)
Inductive Answer : Type :=
| Page (html : string)
| Problem (status : Z) (error : string) (details : option string).

Record Served : Type := { answer : Answer; waited : list Z; fetches : nat }.

Section Handler.

(** What the runtime supplies: [String.prototype.trim]; the reading
    [result.candidates?.[0]?.content?.parts?.[0]?.text] of a parsed
    answer ([None]: [undefined]); and the reading
    [JSON.parse(message).error.message] of an error message ([None]
    when the parse throws or the field is not there). *)
Variable trim : string -> string.
Variable modelText : string -> option string.
Variable errorMessage : string -> option string.

(** From [modelOutput] to the [html] of the answer. *)
Definition clean (v : Flavour) (modelOutput : string) : string :=
  match v with
  | Standalone => unfence (trim modelOutput)
  | Unified => trim (replaceFences (trim modelOutput))
  end.

Definition errorDetails (message : string) : string :=
  match errorMessage message with
  | Some m => if truthy (Some m) then m else message
  | None => message
  end.

(** [app.post("/generate-email", ...)]; [content] is the field of that
    name in the body, [fetch] the model's endpoint.  The other fields
    only enter the prompt. *)
Definition generateEmail (v : Flavour) (fetch : nat -> Fetched)
    (content : option string) : option Served :=
  if negb (truthy content) then
    Some {| answer := Problem 400 "Missing 'content' in the request body." None;
            waited := []; fetches := 0 |}
  else
    match fetchWithBackoff v fetch 5 with
    | None => None
    | Some r =>
        Some {| answer :=
                  match outcome r with
                  | Returned result =>
                      Page (clean v (default noContent
                                       (orElse (modelText result) (Some noContent))))
                  | Thrown message =>
                      Problem 500 "Failed to generate email"
                              (Some (errorDetails message))
                  end;
                waited := delays r;
                fetches := calls r |}
    end.

End Handler.

End Generate.

(* ------------------------------------------------------------------ *)
(** ** Start-up: [startServer]                                         *)
(* ------------------------------------------------------------------ *)

Module Ports.

(** How [app.listen(port, callback)] comes out: the server listens;
    it emits an error, with the code [EADDRINUSE] or another one; or
    the call itself throws (a port out of range), which rejects the
    promise with an error of another code than [EADDRINUSE]. *)
Inductive Listen : Type := Listening | AddrInUse | OtherError | Threw.

(** The [app.listen] of the installed Express.  Up to Express 4 it
    hands the callback to [server.listen], which runs it on
    ['listening'] only.  From Express 5 on it also registers the
    callback, before anything else, for the server's ['error'] event;
    the callback of [startServer] ignores its argument, so that on an
    error it logs and resolves the promise just the same, before the
    handler that would reject it runs.  The sources do not say which
    Express is installed. *)
Inductive Express : Type := Express4 | Express5.

(** How [startServer] ends: it returns with the server listening on a
    port; it returns having taken a port for bound on which nothing
    listens; or the process exits with a code. *)
Inductive Started : Type :=
| Bound (port : Z)
| Unbound (port : Z)
| Exited (code : Z).

(** [for (let i = 0; i < attemptsLeft; i++)].  Each pass that does not
    end the function increments [i], so [attemptsLeft - i] passes of
    fuel are enough. *)
Fixpoint attempts (express : Express) (listen : Z -> Listen)
    (port attemptsLeft : Z) (fuel : nat) (i : Z) : option Started :=
  if i <? attemptsLeft then
    match fuel with
    | O => None
    | S fuel' =>
        match listen (port + i), express with
        | Listening, _ => Some (Bound (port + i))              (* return *)
        | Threw, _ => Some (Exited 1)
        | _, Express5 => Some (Unbound (port + i))             (* return *)
        | AddrInUse, Express4 =>
            attempts express listen port attemptsLeft fuel' (i + 1)
        | OtherError, Express4 => Some (Exited 1)
        end
    end
  else Some (Exited 1).

Definition startServer (express : Express) (listen : Z -> Listen)
    (port attemptsLeft : Z) : option Started :=
  attempts express listen port attemptsLeft (Z.to_nat attemptsLeft) 0.

(** [parseInt(process.env.PORT, 10) || 3000]: [NaN] and [0] are the
    falsy numbers. *)
Definition initialPort (parsed : option Z) : Z :=
  match parsed with
  | Some n => if n =? 0 then 3000 else n
  | None => 3000
  end.

Definition maxAttempts : Z := 20.

(** *** Sample inputs *)

(** The ports 3000 and 3001 are taken. *)
Definition twoTaken (p : Z) : Listen :=
  if (p =? 3000) || (p =? 3001) then AddrInUse else Listening.

End Ports.

(* ================================================================== *)
(** * Part II: the theorems                                            *)
(* ================================================================== *)

(** ** JavaScript values *)

Lemma truthy_Some (s : string) : s <> "" -> truthy (Some s) = true.
Proof.
  intros H. simpl. destruct (String.eqb_spec s ""); [contradiction|reflexivity].
Qed.

(** ** Number to string *)

Lemma digitsOf_length_ge (fuel : nat) (n : Z) (acc : string) :
  (String.length acc <= String.length (digitsOf fuel n acc))%nat.
Proof.
  revert n acc; induction fuel as [|fuel IH]; intros n acc; simpl; [lia|].
  destruct (n <? 10); simpl; [lia|].
  etransitivity; [|apply IH]. simpl; lia.
Qed.

Lemma toString_nonempty (n : Z) : toString n <> "".
Proof.
  unfold toString. destruct (n <? 0); [discriminate|].
  simpl. destruct (n <? 10); [discriminate|].
  intros H.
  pose proof (digitsOf_length_ge (Z.to_nat (Z.log2 n)) (n / 10)
                (String (digitChar (n mod 10)) "")) as L.
  rewrite H in L. simpl in L. lia.
Qed.

Lemma digitChar_isDigit (d : Z) : 0 <= d <= 9 -> isDigit (digitChar d) = true.
Proof.
  intros H. assert (d = 0 \/ d = 1 \/ d = 2 \/ d = 3 \/ d = 4 \/ d = 5 \/ d = 6
                    \/ d = 7 \/ d = 8 \/ d = 9) as Hd by lia.
  repeat (destruct Hd as [->|Hd]; [reflexivity|]). by subst.
Qed.

Lemma digitChar_value (d : Z) :
  0 <= d <= 9 -> Z.of_nat (nat_of_ascii (digitChar d)) - 48 = d.
Proof.
  intros H. assert (d = 0 \/ d = 1 \/ d = 2 \/ d = 3 \/ d = 4 \/ d = 5 \/ d = 6
                    \/ d = 7 \/ d = 8 \/ d = 9) as Hd by lia.
  repeat (destruct Hd as [->|Hd]; [reflexivity|]). by subst.
Qed.

(** A number of six digits prints as six decimal digits, and reads
    back as itself. *)
Lemma toString_six_digits (n : Z) :
  100000 <= n <= 999999 ->
  String.length (toString n) = 6%nat /\ allDigits (toString n) = true /\
  readDigits 0 (toString n) = n.
Proof.
  intros Hn. unfold toString.
  destruct (n <? 0) eqn:E; [lia|].
  assert (16 <= Z.log2 n) as Hlog.
  { apply Z.log2_le_pow2; lia. }
  destruct (Z.to_nat (Z.log2 n)) as [|[|[|[|[|k]]]]] eqn:Ek; try lia.
  cbn [digitsOf].
  set (a1 := n / 10). set (a2 := a1 / 10). set (a3 := a2 / 10).
  set (a4 := a3 / 10). set (a5 := a4 / 10).
  assert (10000 <= a1 <= 99999) by (unfold a1; Z.div_mod_to_equations; lia).
  assert (1000 <= a2 <= 9999) by (unfold a2; Z.div_mod_to_equations; lia).
  assert (100 <= a3 <= 999) by (unfold a3; Z.div_mod_to_equations; lia).
  assert (10 <= a4 <= 99) by (unfold a4; Z.div_mod_to_equations; lia).
  assert (1 <= a5 <= 9) by (unfold a5; Z.div_mod_to_equations; lia).
  destruct (n <? 10) eqn:E0; [lia|].
  destruct (a1 <? 10) eqn:E1; [lia|].
  destruct (a2 <? 10) eqn:E2; [lia|].
  destruct (a3 <? 10) eqn:E3; [lia|].
  destruct (a4 <? 10) eqn:E4; [lia|].
  destruct (a5 <? 10) eqn:E5; [|lia].
  split; [reflexivity|]. split.
  - cbn [allDigits]. rewrite !digitChar_isDigit; [reflexivity|Z.div_mod_to_equations; lia..].
  - cbn [readDigits]. rewrite !digitChar_value by (Z.div_mod_to_equations; lia).
    unfold a5, a4, a3, a2, a1 in *. Z.div_mod_to_equations. lia.
Qed.

(** ** Numbers *)

Module Binary64Facts.
Local Open Scope Q_scope.

Lemma pow2_pos (k : Z) : 0 < pow2 k.
Proof. apply Qpower_0_lt. reflexivity. Qed.

Lemma pow2_add (a b : Z) : pow2 (a + b) == pow2 a * pow2 b.
Proof. apply Qpower_plus. discriminate. Qed.

Lemma pow2_le (a b : Z) : (a <= b)%Z -> pow2 a <= pow2 b.
Proof. intros H. apply Qpower_le_compat_l; [exact H|discriminate]. Qed.

Lemma pow2_lt_inv (a b : Z) : pow2 a < pow2 b -> (a < b)%Z.
Proof. intros H. eapply Qpower_lt_compat_l_inv; [exact H|reflexivity]. Qed.

Lemma pow2_Z (k : Z) : (0 <= k)%Z -> pow2 k == inject_Z (2 ^ k).
Proof. intros H. unfold pow2. rewrite Zpower_Qpower by exact H. reflexivity. Qed.

(** [ilog2] brackets a positive number between two powers of two. *)
Lemma ilog2_spec (x : Q) :
  0 < x -> pow2 (ilog2 x) <= x /\ x < pow2 (ilog2 x + 1).
Proof.
  intros Hx. destruct x as [n d]. unfold ilog2. cbn [Qnum Qden].
  assert (0 < n)%Z as Hn.
  { unfold Qlt in Hx. simpl in Hx. lia. }
  set (a := Z.log2 n). set (b := Z.log2 (Z.pos d)).
  destruct (Z.log2_spec n Hn) as [Ha1 Ha2]. fold a in Ha1, Ha2.
  destruct (Z.log2_spec (Z.pos d) eq_refl) as [Hb1 Hb2]. fold b in Hb1, Hb2.
  assert (0 <= a)%Z as Ha0 by apply Z.log2_nonneg.
  assert (0 <= b)%Z as Hb0 by apply Z.log2_nonneg.
  (* the same facts, in Q *)
  assert (pow2 a <= inject_Z n) as Qa1.
  { rewrite pow2_Z by lia. rewrite <- Zle_Qle. exact Ha1. }
  assert (inject_Z n < pow2 (a + 1)) as Qa2.
  { rewrite pow2_Z by lia. rewrite <- Zlt_Qlt. replace (a + 1)%Z with (Z.succ a) by lia. exact Ha2. }
  assert (pow2 b <= inject_Z (Z.pos d)) as Qb1.
  { rewrite pow2_Z by lia. rewrite <- Zle_Qle. exact Hb1. }
  assert (inject_Z (Z.pos d) < pow2 (b + 1)) as Qb2.
  { rewrite pow2_Z by lia. rewrite <- Zlt_Qlt. replace (b + 1)%Z with (Z.succ b) by lia. exact Hb2. }
  assert ((n # d) * inject_Z (Z.pos d) == inject_Z n) as Hmul.
  { unfold Qeq, Qmult, inject_Z. simpl. lia. }
  pose proof (pow2_pos b) as Pb. pose proof (pow2_pos (b + 1)) as Pb1.
  destruct (Qle_bool (pow2 (a - b)) (n # d)) eqn:E.
  - apply Qle_bool_iff in E. split; [exact E|].
    pose proof (pow2_add (a - b + 1) b) as Hs.
    replace (a - b + 1 + b)%Z with (a + 1)%Z in Hs by lia.
    pose proof (pow2_pos (a - b + 1)) as Pe.
    set (X := n # d) in *. set (D := inject_Z (Z.pos d)) in *.
    set (N := inject_Z n) in *.
    set (A := pow2 (a + 1)) in *. set (B := pow2 b) in *.
    set (E1 := pow2 (a - b + 1)) in *.
    nra.
  - assert (~ pow2 (a - b) <= n # d) as E'.
    { intros H. apply Qle_bool_iff in H. congruence. }
    apply Qnot_le_lt in E'. split.
    + pose proof (pow2_add (a - b - 1) (b + 1)) as Hs.
      replace (a - b - 1 + (b + 1))%Z with a in Hs by lia.
      pose proof (pow2_pos (a - b - 1)) as Pe.
      set (X := n # d) in *. set (D := inject_Z (Z.pos d)) in *.
      set (N := inject_Z n) in *.
      set (A := pow2 a) in *. set (B := pow2 (b + 1)) in *.
      set (E1 := pow2 (a - b - 1)) in *.
      nra.
    + replace (a - b - 1 + 1)%Z with (a - b)%Z by lia. exact E'.
Qed.

Lemma ilog2_lt (x : Q) (k : Z) : 0 < x -> x < pow2 k -> (ilog2 x < k)%Z.
Proof.
  intros Hx Hk. destruct (ilog2_spec x Hx) as [H1 _].
  apply pow2_lt_inv. eapply Qle_lt_trans; eassumption.
Qed.

Lemma ilog2_ge (x : Q) (k : Z) : 0 < x -> pow2 k <= x -> (k <= ilog2 x)%Z.
Proof.
  intros Hx Hk. destruct (ilog2_spec x Hx) as [_ H2].
  assert (k < ilog2 x + 1)%Z; [|lia].
  apply pow2_lt_inv. eapply Qle_lt_trans; eassumption.
Qed.

Lemma Qabs_positive (x : Q) : 0 < x -> Qabs x = x.
Proof.
  destruct x as [n d]. unfold Qlt. simpl. intros H.
  unfold Qabs. f_equal. apply Z.abs_eq. lia.
Qed.

(** *** Rounding to the nearest integer *)

Lemma roundHalfEven_cases (y : Q) :
  roundHalfEven y = Qfloor y \/ roundHalfEven y = (Qfloor y + 1)%Z.
Proof.
  unfold roundHalfEven.
  destruct (y - inject_Z (Qfloor y) ?= 1 # 2); [destruct (Z.even _)| |]; auto.
Qed.

Lemma roundHalfEven_lower (y : Q) (a : Z) :
  inject_Z a <= y -> (a <= roundHalfEven y)%Z.
Proof.
  intros H. assert (a <= Qfloor y)%Z as Hf.
  { rewrite <- (Qfloor_Z a). apply Qfloor_resp_le. exact H. }
  destruct (roundHalfEven_cases y) as [-> | ->]; lia.
Qed.

Lemma roundHalfEven_upper (y : Q) (b : Z) :
  y <= inject_Z b -> (roundHalfEven y <= b)%Z.
Proof.
  intros H. pose proof (Qfloor_le y) as Hf.
  assert (Qfloor y <= b)%Z as Hfb.
  { rewrite <- (Qfloor_Z b). apply Qfloor_resp_le. exact H. }
  destruct (Z.eq_dec (Qfloor y) b) as [Heq|Hne].
  - (* y is the integer b itself *)
    unfold roundHalfEven. rewrite Heq in *.
    assert (y - inject_Z b < 1 # 2) as Hlt by lra.
    rewrite Qlt_alt in Hlt. rewrite Hlt. lia.
  - destruct (roundHalfEven_cases y) as [-> | ->]; lia.
Qed.

Lemma roundHalfEven_near (y : Q) : inject_Z (roundHalfEven y) <= y + (1 # 2).
Proof.
  pose proof (Qfloor_le y) as Hf. unfold roundHalfEven.
  destruct (y - inject_Z (Qfloor y) ?= 1 # 2) eqn:E.
  - apply Qeq_alt in E.
    destruct (Z.even _); [lra|].
    rewrite inject_Z_plus. change (inject_Z 1) with 1. lra.
  - lra.
  - apply Qgt_alt in E. rewrite inject_Z_plus. change (inject_Z 1) with 1. lra.
Qed.

(** *** Rounding to binary64 *)

Lemma round64_positive (x : Q) :
  0 < x ->
  round64 x = inject_Z (roundHalfEven (x / pow2 (ulpExponent x))) * pow2 (ulpExponent x).
Proof.
  intros H. unfold round64.
  destruct (Qeq_bool x 0) eqn:E; [|reflexivity].
  apply Qeq_bool_iff in E. lra.
Qed.

Lemma ulpExponent_le (x : Q) (k : Z) :
  0 < x -> x < pow2 k -> (-1022 < k)%Z -> (ulpExponent x <= k - 53)%Z.
Proof.
  intros Hx Hk Hmin. unfold ulpExponent. rewrite (Qabs_positive x Hx).
  pose proof (ilog2_lt x k Hx Hk). lia.
Qed.

(** A multiple of [2^g] is a multiple of every finer unit [2^q]. *)
Lemma grid_refine (a g q : Z) :
  (q <= g)%Z -> inject_Z a * pow2 g == inject_Z (a * 2 ^ (g - q)) * pow2 q.
Proof.
  intros H. rewrite inject_Z_mult, <- (pow2_Z (g - q)) by lia.
  rewrite <- Qmult_assoc, <- pow2_add.
  replace (g - q + q)%Z with g by lia. reflexivity.
Qed.

(** Rounding does not cross a number that is itself representable at
    the precision of the number rounded. *)
Lemma round64_lower (x : Q) (a g : Z) :
  0 < x -> (ulpExponent x <= g)%Z ->
  inject_Z a * pow2 g <= x -> inject_Z a * pow2 g <= round64 x.
Proof.
  intros Hx Hg Ha. rewrite (round64_positive x Hx).
  set (q := ulpExponent x) in *. pose proof (pow2_pos q) as Pq.
  rewrite (grid_refine a g q Hg) in *.
  apply Qmult_le_compat_r; [|lra].
  rewrite <- Zle_Qle. apply roundHalfEven_lower.
  apply Qle_shift_div_l; assumption.
Qed.

Lemma round64_upper (x : Q) (b g : Z) :
  0 < x -> (ulpExponent x <= g)%Z ->
  x <= inject_Z b * pow2 g -> round64 x <= inject_Z b * pow2 g.
Proof.
  intros Hx Hg Hb. rewrite (round64_positive x Hx).
  set (q := ulpExponent x) in *. pose proof (pow2_pos q) as Pq.
  rewrite (grid_refine b g q Hg) in *.
  apply Qmult_le_compat_r; [|lra].
  rewrite <- Zle_Qle. apply roundHalfEven_upper.
  apply Qle_shift_div_r; assumption.
Qed.

(** The rounding error is at most half a unit in the last place. *)
Lemma round64_near (x : Q) :
  0 < x -> round64 x <= x + (1 # 2) * pow2 (ulpExponent x).
Proof.
  intros Hx. rewrite (round64_positive x Hx).
  set (q := ulpExponent x). pose proof (pow2_pos q) as Pq.
  pose proof (roundHalfEven_near (x / pow2 q)) as H.
  apply (Qmult_le_compat_r _ _ (pow2 q)) in H; [|lra].
  assert (x / pow2 q * pow2 q == x) as Hd by (field; lra).
  rewrite Qmult_plus_distr_l, Hd in H. exact H.
Qed.

(** *** The draw *)

(** A binary64 number below one is at most [1 - 2^-53]. *)
Lemma double_below_one (r : Q) :
  0 <= r -> r < 1 -> round64 r == r -> r <= 1 - pow2 (-53).
Proof.
  intros H0 H1 Hd.
  assert (pow2 (-53) == 1 # 9007199254740992) as P53 by (vm_compute; reflexivity).
  destruct (Qlt_le_dec r (1 # 2)) as [Hlt|Hge]; [rewrite P53; lra|].
  assert (0 < r) as Hr by lra.
  assert (ulpExponent r = (-53)%Z) as Hq.
  { unfold ulpExponent. rewrite (Qabs_positive r Hr).
    assert (ilog2 r < 0)%Z by (apply ilog2_lt; [exact Hr|exact H1]).
    assert (-1 <= ilog2 r)%Z by (apply ilog2_ge; [exact Hr|exact Hge]).
    lia. }
  rewrite (round64_positive r Hr), Hq in Hd.
  set (k := roundHalfEven (r / pow2 (-53))) in *.
  assert (k < 9007199254740992)%Z as Hk.
  { rewrite Zlt_Qlt.
    change (inject_Z 9007199254740992) with (9007199254740992 # 1).
    rewrite P53 in Hd. lra. }
  assert (inject_Z k <= inject_Z 9007199254740991) as Hk'.
  { rewrite <- Zle_Qle. lia. }
  change (inject_Z 9007199254740991) with (9007199254740991 # 1) in Hk'.
  rewrite P53 in *. lra.
Qed.

Lemma product_bounds (r : Q) :
  0 <= r -> r <= 1 - pow2 (-53) ->
  0 <= round64 (r * 900000) /\ round64 (r * 900000) <= 900000 - pow2 (-33).
Proof.
  intros H0 H1.
  assert (pow2 (-53) == 1 # 9007199254740992) as P53 by (vm_compute; reflexivity).
  assert (pow2 (-33) == 1 # 8589934592) as P33 by (vm_compute; reflexivity).
  assert (pow2 19 == 524288) as P19 by (vm_compute; reflexivity).
  assert (pow2 20 == 1048576) as P20 by (vm_compute; reflexivity).
  set (x := r * 900000) in *.
  assert (0 <= x) as Hx0 by (unfold x; lra).
  assert (x <= 900000 - 900000 * pow2 (-53)) as Hx1 by (unfold x; lra).
  destruct (Qeq_bool x 0) eqn:E.
  { unfold round64. rewrite E. rewrite P33. lra. }
  assert (0 < x) as Hx.
  { apply Qeq_bool_neq in E. lra. }
  split.
  - pose proof (round64_lower x 0 (ulpExponent x) Hx (Z.le_refl _)) as H.
    assert (inject_Z 0 * pow2 (ulpExponent x) == 0) as Hz by (change (inject_Z 0) with 0; ring).
    rewrite Hz in H. apply H. lra.
  - destruct (Qlt_le_dec x (pow2 19)) as [Hlow|Hhigh].
    + assert (ulpExponent x <= -34)%Z as Hq.
      { apply (ulpExponent_le x 19 Hx Hlow). lia. }
      pose proof (round64_upper x (2 ^ 53) (-34) Hx Hq) as H.
      assert (inject_Z (2 ^ 53) * pow2 (-34) == 524288) as Hc by (vm_compute; reflexivity).
      rewrite Hc in H. rewrite P33. rewrite P19 in Hlow.
      assert (round64 x <= 524288) by (apply H; lra). lra.
    + assert (x < pow2 20) as Hx20 by (rewrite P20; rewrite P53 in Hx1; lra).
      assert (ulpExponent x = (-33)%Z) as Hq.
      { unfold ulpExponent. rewrite (Qabs_positive x Hx).
        assert (ilog2 x < 20)%Z by (apply ilog2_lt; assumption).
        assert (19 <= ilog2 x)%Z by (apply ilog2_ge; assumption).
        lia. }
      pose proof (round64_near x Hx) as Hnear. rewrite Hq in Hnear.
      rewrite (round64_positive x Hx), Hq in *.
      set (k := roundHalfEven (x / pow2 (-33))) in *.
      assert (k < 7730941132800000)%Z as Hk.
      { rewrite Zlt_Qlt. change (inject_Z 7730941132800000) with (7730941132800000 # 1).
        rewrite P33, P53 in *. lra. }
      assert (inject_Z k <= inject_Z 7730941132799999) as Hk'.
      { rewrite <- Zle_Qle. lia. }
      change (inject_Z 7730941132799999) with (7730941132799999 # 1) in Hk'.
      rewrite P33. lra.
Qed.

Lemma otpNumber_range (r : Q) :
  0 <= r -> r < 1 -> round64 r == r ->
  (100000 <= Otp.otpNumber r <= 999999)%Z.
Proof.
  intros H0 H1 Hd. pose proof (double_below_one r H0 H1 Hd) as Hr.
  destruct (product_bounds r H0 Hr) as [Hp0 Hp1].
  assert (pow2 (-33) == 1 # 8589934592) as P33 by (vm_compute; reflexivity).
  assert (pow2 20 == 1048576) as P20 by (vm_compute; reflexivity).
  unfold Otp.otpNumber. set (p := round64 (r * 900000)) in *.
  set (y := 100000 + p).
  assert (0 < y) as Hy by (unfold y; lra).
  assert (ulpExponent y <= -33)%Z as Hq.
  { apply (ulpExponent_le y 20 Hy); [|lia]. rewrite P20. unfold y. rewrite P33 in Hp1. lra. }
  pose proof (round64_lower y 858993459200000 (-33) Hy Hq) as Hlo.
  pose proof (round64_upper y 8589934591999999 (-33) Hy Hq) as Hhi.
  assert (inject_Z 858993459200000 * pow2 (-33) == 100000) as Ea by (vm_compute; reflexivity).
  assert (inject_Z 8589934591999999 * pow2 (-33) == 1000000 - (1 # 8589934592)) as Eb
    by (vm_compute; reflexivity).
  rewrite Ea in Hlo. rewrite Eb in Hhi.
  assert (100000 <= round64 y) as Hs0 by (apply Hlo; unfold y; lra).
  assert (round64 y <= 1000000 - (1 # 8589934592)) as Hs1
    by (apply Hhi; unfold y; rewrite P33 in Hp1; lra).
  split.
  - change 100000%Z with (Qfloor (inject_Z 100000)). apply Qfloor_resp_le.
    change (inject_Z 100000) with 100000. exact Hs0.
  - pose proof (Qfloor_le (round64 y)) as Hf.
    assert (Qfloor (round64 y) < 1000000)%Z; [|lia].
    rewrite Zlt_Qlt. change (inject_Z 1000000) with 1000000. lra.
Qed.

(** The rounding agrees with the Standard Library's specification of
    binary64 multiplication and addition on the computation of the
    code, for the largest draw, [1 - 2^-53], and for the draw [1/2]. *)
Example round64_agrees_with_SpecFloat :
  let top := S754_finite false 9007199254740991 (-53) in
  let half := S754_finite false 4503599627370496 (-53) in
  let c900000 := S754_finite false 7730941132800000 (-33) in
  let c100000 := S754_finite false 6871947673600000 (-36) in
  valueOf (SFmul 53 1024 top c900000)
    == round64 (valueOf top * valueOf c900000) /\
  valueOf (SFadd 53 1024 c100000 (SFmul 53 1024 top c900000))
    == round64 (valueOf c100000 + round64 (valueOf top * valueOf c900000)) /\
  valueOf (SFmul 53 1024 half c900000)
    == round64 (valueOf half * valueOf c900000) /\
  valueOf (SFadd 53 1024 c100000 (SFmul 53 1024 half c900000))
    == round64 (valueOf c100000 + round64 (valueOf half * valueOf c900000)).
Proof. repeat split; vm_compute; reflexivity. Qed.

End Binary64Facts.

(** ** The OTP service *)

Module OtpFacts.
Import Otp.

Lemma generateOtp_nonempty (r : Q) : generateOtp r <> "".
Proof. apply toString_nonempty. Qed.

(** *** Reading and deleting *)

Lemma read_own (store : OtpStore) (k : string) (r : OtpRecord) :
  store !! k = Some r -> read store k = Held r.
Proof. intros H. unfold read. by rewrite H. Qed.

Lemma read_Held (store : OtpStore) (k : string) (r : OtpRecord) :
  read store k = Held r <-> store !! k = Some r.
Proof.
  split; [|apply read_own]. unfold read, inherited.
  destruct (store !! k) as [r'|]; [by intros [= ->]|].
  destruct (store !! "__proto__");
    repeat match goal with |- context [if ?c then _ else _] => destruct c end; done.
Qed.

(** A key under which nothing is inherited is not [__proto__]. *)
Lemma plain_key (store : OtpStore) (k : string) :
  inherited store k = Undefined -> k <> "__proto__".
Proof.
  intros H ->. unfold inherited in H. by destruct (store !! "__proto__").
Qed.

Lemma unset_plain (store : OtpStore) (k : string) :
  k <> "__proto__" -> unset k store = delete k store.
Proof. intros H. unfold unset. by destruct (String.eqb_spec k "__proto__"). Qed.

Lemma unset_proto (store : OtpStore) : unset "__proto__" store = store.
Proof. reflexivity. Qed.

Lemma unset_sub (store : OtpStore) (e k : string) (r : OtpRecord) :
  unset e store !! k = Some r -> store !! k = Some r.
Proof.
  unfold unset. destruct (String.eqb e "__proto__"); [done|].
  intros H. by apply lookup_delete_Some in H as [_ H].
Qed.

Lemma unset_other (store : OtpStore) (e k : string) :
  e <> k -> unset e store !! k = store !! k.
Proof.
  intros H. unfold unset. destruct (String.eqb e "__proto__"); [done|].
  by rewrite lookup_delete_ne.
Qed.

(** Deleting an own property changes nothing of what is inherited. *)
Lemma inherited_delete (store : OtpStore) (e k : string) :
  e <> "__proto__" -> inherited (delete e store) k = inherited store k.
Proof. intros H. unfold inherited. by rewrite lookup_delete_ne. Qed.

(** *** The sweep, key by key *)

Lemma sweepKey_lookup (t : Z) (s : OtpStore) (e k : string) :
  sweepKey t s e !! k =
    if decide (e = k)
    then match s !! k with
         | Some r =>
             if (expiresAt r <=? t) && negb (String.eqb k "__proto__")
             then None else Some r
         | None => None
         end
    else s !! k.
Proof.
  unfold sweepKey. destruct (decide (e = k)) as [->|Hne].
  - destruct (s !! k) as [r|] eqn:E.
    + rewrite (read_own _ _ _ E). destruct (expiresAt r <=? t); [|done].
      unfold unset. destruct (String.eqb k "__proto__"); [done|].
      apply lookup_delete_eq.
    + destruct (read s k) as [|r|b] eqn:Er; try done.
      apply read_Held in Er. congruence.
  - destruct (read s e) as [|r|b]; try done.
    destruct (expiresAt r <=? t); [by apply unset_other|done].
Qed.

Lemma sweepKeys_sub (t : Z) (keys : list string) (s : OtpStore) (k : string)
    (r : OtpRecord) :
  foldl (sweepKey t) s keys !! k = Some r -> s !! k = Some r.
Proof.
  revert s; induction keys as [|e keys IH]; intros s; simpl; [done|].
  intros H. apply IH in H. rewrite sweepKey_lookup in H.
  destruct (decide (e = k)); [|done].
  destruct (s !! k) as [r'|]; [|done].
  destruct ((expiresAt r' <=? t) && negb (String.eqb k "__proto__")); [done|done].
Qed.

Lemma sweepKeys_live (t : Z) (keys : list string) (s : OtpStore) (k : string)
    (r : OtpRecord) :
  foldl (sweepKey t) s keys !! k = Some r -> k ∈ keys -> k <> "__proto__" ->
  t < expiresAt r.
Proof.
  revert s; induction keys as [|e keys IH]; intros s; simpl.
  - intros _ H. by apply elem_of_nil in H.
  - intros H Hin Hk.
    destruct (decide (e = k)) as [->|Hne].
    + apply sweepKeys_sub in H. rewrite sweepKey_lookup in H.
      destruct (decide (k = k)); [|done].
      destruct (s !! k) as [r'|]; [|done].
      destruct (String.eqb_spec k "__proto__"); [done|].
      destruct (expiresAt r' <=? t) eqn:E; [done|].
      inversion H; subst. lia.
    + apply elem_of_cons in Hin as [->|Hin]; [done|]. by eapply IH.
Qed.

Lemma sweepKeys_keep (t : Z) (keys : list string) (s : OtpStore) (k : string)
    (r : OtpRecord) :
  s !! k = Some r -> t < expiresAt r \/ k = "__proto__" ->
  foldl (sweepKey t) s keys !! k = Some r.
Proof.
  revert s; induction keys as [|e keys IH]; intros s; simpl; [done|].
  intros H Hlive. apply IH; [|done].
  rewrite sweepKey_lookup. destruct (decide (e = k)); [|done].
  rewrite H. destruct Hlive as [Hlive| ->].
  - destruct (expiresAt r <=? t) eqn:E; [lia|done].
  - by rewrite andb_false_r.
Qed.

Lemma ownKeys_spec (s : OtpStore) (k : string) :
  k ∈ ownKeys s <-> is_Some (s !! k) /\ k <> "__proto__".
Proof.
  unfold ownKeys. rewrite list_elem_of_In, filter_In, <- list_elem_of_In.
  rewrite list_elem_of_fmap. split.
  - intros [([k' r] & -> & Hin) Hk]. apply elem_of_map_to_list in Hin.
    split; [by eexists|]. cbn [fst] in Hk.
    by destruct (String.eqb_spec k' "__proto__").
  - intros [[r Hr] Hk]. split.
    + exists (k, r). split; [done|]. by apply elem_of_map_to_list.
    + by destruct (String.eqb_spec k "__proto__").
Qed.

(** The sweep keeps exactly the own records that have not expired, and
    the record in prototype position. *)
Lemma sweep_lookup (t : Z) (s : OtpStore) (k : string) :
  sweep t s !! k =
    match s !! k with
    | Some r =>
        if (expiresAt r <=? t) && negb (String.eqb k "__proto__")
        then None else Some r
    | None => None
    end.
Proof.
  unfold sweep.
  destruct (foldl (sweepKey t) s (ownKeys s) !! k) as [r|] eqn:E.
  - pose proof (sweepKeys_sub _ _ _ _ _ E) as Hs. rewrite Hs.
    destruct (String.eqb_spec k "__proto__") as [->|Hk]; [by rewrite andb_false_r|].
    assert (k ∈ ownKeys s) as Hin by (apply ownKeys_spec; split; [by eexists|done]).
    pose proof (sweepKeys_live _ _ _ _ _ E Hin Hk).
    destruct (expiresAt r <=? t) eqn:E'; [lia|done].
  - destruct (s !! k) as [r|] eqn:Hs; [|done].
    destruct (String.eqb_spec k "__proto__") as [->|Hk].
    + rewrite (sweepKeys_keep t _ s "__proto__" r) in E; [done|done|by right].
    + destruct (expiresAt r <=? t) eqn:E'; [done|].
      rewrite (sweepKeys_keep t _ s k r) in E; [done|done|left; lia].
Qed.

(** *** Verification *)

(** The presence guard: a request without an email or without a code
    is answered 400 and the store is not looked at. *)
Lemma verifyOtp_guard (store : OtpStore) (email code : option string) (t : Z) :
  truthy email = false \/ truthy code = false ->
  verifyOtp store email code t
    = (store, statusJson 400 false "Missing email or otp").
Proof.
  intros H. unfold verifyOtp. destruct email as [e|], code as [c|]; try done.
  destruct H as [-> | ->]; [done|]. by rewrite orb_true_r.
Qed.

(** What [/verify-otp] does once both fields are present. *)
Lemma verifyOtp_present (store : OtpStore) (email code : string) (t : Z) :
  email <> "" -> code <> "" ->
  verifyOtp store (Some email) (Some code) t =
    match read store email with
    | Held record =>
        if t >? expiresAt record then (unset email store, expired)
        else if negb (String.eqb (otp record) code) then (store, mismatch)
        else (unset email store, verified)
    | Foreign true => (store, mismatch)
    | Foreign false | Undefined => (store, notFound)
    end.
Proof.
  intros He Hc. unfold verifyOtp.
  rewrite (truthy_Some _ He), (truthy_Some _ Hc). reflexivity.
Qed.

(** The same for an address that has a record. *)
Lemma verifyOtp_held (store : OtpStore) (email code : string) (t : Z)
    (record : OtpRecord) :
  email <> "" -> code <> "" -> store !! email = Some record ->
  verifyOtp store (Some email) (Some code) t =
    if t >? expiresAt record then (unset email store, expired)
    else if negb (String.eqb (otp record) code) then (store, mismatch)
    else (unset email store, verified).
Proof.
  intros He Hc Hs. by rewrite (verifyOtp_present _ _ _ _ He Hc), (read_own _ _ _ Hs).
Qed.

(** C4 (as amended).  For every store, every non-empty code, every
    instant [t] and every non-empty email under which the store object
    inherits nothing (it is not the name of a member of
    [Object.prototype], [__proto__] included, nor the name of a field
    of a record in prototype position):
    - with no record for the email, the answer is "not found" and the
      store is unchanged;
    - with a record whose expiry [t] exceeds, the answer is "expired"
      and the record is deleted;
    - with a live record holding another code, the answer is "invalid"
      and the store still holds the original record;
    - with a live record holding this very code, the answer is
      "verified", the record is deleted, and verifying again with the
      same code, at any instant, answers "not found". *)
Theorem verify_contract (store : OtpStore) (email code : string) (t : Z) :
  email <> "" -> code <> "" -> inherited store email = Undefined ->
  let out := verifyOtp store (Some email) (Some code) t in
  (store !! email = None -> out = (store, notFound)) /\
  (forall r, store !! email = Some r -> expiresAt r < t ->
     snd out = expired /\ fst out = delete email store /\
     fst out !! email = None) /\
  (forall r, store !! email = Some r -> t <= expiresAt r -> otp r <> code ->
     snd out = mismatch /\ fst out = store /\ fst out !! email = Some r) /\
  (forall r, store !! email = Some r -> t <= expiresAt r -> otp r = code ->
     snd out = verified /\ fst out = delete email store /\
     fst out !! email = None /\
     forall t', verifyOtp (fst out) (Some email) (Some code) t'
                = (fst out, notFound)).
Proof.
  intros He Hc Hi out. subst out.
  pose proof (plain_key _ _ Hi) as Hk.
  split; [|split; [|split]].
  - intros Hs. rewrite (verifyOtp_present _ _ _ _ He Hc).
    unfold read. by rewrite Hs, Hi.
  - intros r Hs Ht. rewrite (verifyOtp_held _ _ _ _ _ He Hc Hs), (unset_plain _ _ Hk).
    destruct (t >? expiresAt r) eqn:E; [|lia].
    cbn [fst snd]. repeat split. apply lookup_delete_eq.
  - intros r Hs Ht Ho. rewrite (verifyOtp_held _ _ _ _ _ He Hc Hs).
    destruct (t >? expiresAt r) eqn:E; [lia|].
    destruct (String.eqb_spec (otp r) code); [contradiction|].
    cbn [negb fst snd]. by repeat split.
  - intros r Hs Ht Ho. rewrite (verifyOtp_held _ _ _ _ _ He Hc Hs), (unset_plain _ _ Hk).
    destruct (t >? expiresAt r) eqn:E; [lia|].
    destruct (String.eqb_spec (otp r) code); [|contradiction].
    cbn [negb fst snd]. split; [done|]. split; [done|].
    split; [apply lookup_delete_eq|].
    intros t'. rewrite (verifyOtp_present _ _ _ _ He Hc). unfold read.
    by rewrite lookup_delete_eq, (inherited_delete _ _ _ Hk), Hi.
Qed.

Lemma verify_contract_witness :
  "u@x.com" <> "" /\ "123456" <> "" /\
  verifyOtp oneRecord (Some "u@x.com") (Some "123456") 1000
    = (delete "u@x.com" oneRecord, verified).
Proof.
  split; [discriminate|]. split; [discriminate|].
  pose proof (verify_contract oneRecord "u@x.com" "123456" 1000) as H.
  destruct H as (_ & _ & _ & H); [discriminate|discriminate|reflexivity|].
  destruct (H {| otp := "123456"; expiresAt := 300000 |})
    as (Hr & Hs & _); [reflexivity|simpl; lia|reflexivity|].
  rewrite <- Hr, <- Hs. apply surjective_pairing.
Defined.

(** C4 as stated fails on a pair whose code is the empty string (a
    body without [otp]): no record exists for the email, and the
    answer is the 400 of the presence guard, not "not found". *)
Lemma verify_empty_code_not_notFound :
  (∅ : OtpStore) !! "u@x.com" = None /\
  verifyOtp ∅ (Some "u@x.com") (Some "") 0
    = (∅, statusJson 400 false "Missing email or otp") /\
  snd (verifyOtp ∅ (Some "u@x.com") (Some "") 0) <> notFound.
Proof. split; [reflexivity|]. split; [reflexivity|discriminate]. Qed.

(** It fails as well where the email names something the store object
    inherits.  In the empty store no record exists for [constructor],
    yet what is read there is the function [Object], and the answer is
    "invalid"; it is "invalid" again for [otp] once a code was issued
    to [__proto__].  And a code issued to [__proto__] is not single-use:
    the record is the prototype of the store, the [delete] removes
    nothing, and the same code verifies again. *)
Lemma verify_inherited_names :
  (∅ : OtpStore) !! "constructor" = None /\
  verifyOtp ∅ (Some "constructor") (Some "123456") 0 = (∅, mismatch) /\
  protoRecord !! "otp" = None /\
  verifyOtp protoRecord (Some "otp") (Some "123456") 0 = (protoRecord, mismatch) /\
  verifyOtp protoRecord (Some "__proto__") (Some "123456") 0
    = (protoRecord, verified) /\
  verifyOtp protoRecord (Some "__proto__") (Some "123456") 999999
    = (protoRecord, expired).
Proof. repeat split. Qed.

(** The same guard keeps an expired record in the store when the code
    is missing: the expiry test is not reached. *)
Example verify_guard_keeps_expired :
  verifyOtp oneRecord (Some "u@x.com") None 999999
    = (oneRecord, statusJson 400 false "Missing email or otp").
Proof. reflexivity. Qed.

(** *** Issuance *)

(** An issuance for a non-empty address writes the fresh record over
    whatever the store held, whatever becomes of the mail and of the
    audit entry. *)
Lemma sendOtp_store (v : Sender) (store : OtpStore) (email : string) (w : World) :
  email <> "" ->
  fst (sendOtp v store (Some email) w) = <[ email := fresh w ]> store.
Proof.
  intros He. unfold sendOtp. rewrite (truthy_Some _ He).
  destruct (sendMail w); [destruct (audit v w)|]; reflexivity.
Qed.

Lemma issuance_overwrites (v : Sender) (store : OtpStore) (email other : string)
    (w : World) :
  email <> "" ->
  fst (sendOtp v store (Some email) w) !! email = Some (fresh w) /\
  (other <> email -> fst (sendOtp v store (Some email) w) !! other = store !! other).
Proof.
  intros He. rewrite (sendOtp_store _ _ _ _ He). split.
  - apply lookup_insert_eq.
  - intros Hne. by rewrite lookup_insert_ne.
Qed.

Lemma sendOtp_store_falsy (v : Sender) (store : OtpStore) (email : option string)
    (w : World) :
  truthy email = false -> fst (sendOtp v store email w) = store.
Proof.
  intros He. unfold sendOtp. destruct email; [rewrite He|]; reflexivity.
Qed.

(** Verification only ever deletes. *)
Lemma verifyOtp_sub (store : OtpStore) (email code : option string) (t : Z)
    (k : string) (r : OtpRecord) :
  fst (verifyOtp store email code t) !! k = Some r -> store !! k = Some r.
Proof.
  unfold verifyOtp. destruct email as [e|], code as [c|]; try done.
  destruct (negb (truthy (Some e)) || negb (truthy (Some c))); [done|].
  destruct (read store e) as [|rec|[|]]; try done.
  destruct (t >? expiresAt rec); [apply unset_sub|].
  destruct (negb (String.eqb (otp rec) c)); [done|apply unset_sub].
Qed.

(** The sweep only ever deletes. *)
Lemma sweep_sub (t : Z) (store : OtpStore) (k : string) (r : OtpRecord) :
  sweep t store !! k = Some r -> store !! k = Some r.
Proof. apply sweepKeys_sub. Qed.

(** One event: the record found under [k] afterwards was either
    written by this very event, an issuance for [k], or was there
    before and the event is not an issuance for [k]. *)
Lemma step_lookup (store : OtpStore) (op : Op) (k : string) (r : OtpRecord) :
  step store op !! k = Some r ->
  issued k op = Some r \/ (issued k op = None /\ store !! k = Some r).
Proof.
  destruct op as [v email w|email code t|t]; simpl.
  - destruct email as [e|].
    + destruct (String.eqb_spec e "") as [->|He].
      * rewrite sendOtp_store_falsy by reflexivity. by right.
      * rewrite (sendOtp_store _ _ _ _ He). simpl.
        destruct (String.eqb_spec e k) as [->|Hne].
        -- rewrite lookup_insert_eq. intros [= <-]. by left.
        -- rewrite lookup_insert_ne by done. by right.
    + by right.
  - intros H. right. split; [done|]. by eapply verifyOtp_sub.
  - intros H. right. split; [done|]. by eapply sweep_sub.
Qed.

Lemma run_lookup (store : OtpStore) (ops : list Op) (email : string) (r : OtpRecord) :
  run store ops !! email = Some r ->
  lastIssued email ops = Some r \/
  (lastIssued email ops = None /\ store !! email = Some r).
Proof.
  revert store. induction ops as [|op ops IH]; intros store; simpl.
  - intros H. by right.
  - intros H. destruct (IH _ H) as [Hl|[Hl Hs]].
    + left. by rewrite Hl.
    + rewrite Hl. by apply step_lookup.
Qed.

(** C8.  The store holds at most one record for an address, and it is
    the latest.  For every store and every non-empty address:
    - an issuance leaves the store with the fresh record under the
      address, whatever the store held there, whatever becomes of the
      mail and of the audit entry and whichever sender runs: what
      [otpStore[email]] reads afterwards is that record, and every
      other entry of the store is as before;
    - a verification and a sweep write nothing: every record the store
      holds after them it held before, under the same address;
    - so after any sequence of issuances, verifications and sweeps, a
      record the store holds for the address is the one written by the
      most recent issuance for it, or, if the sequence holds no
      issuance for it, the initial one, untouched. *)
Theorem store_holds_latest_issuance (store : OtpStore) (ops : list Op)
    (email : string) (r : OtpRecord) :
  email <> "" ->
  (forall v w,
     fst (sendOtp v store (Some email) w) = <[ email := fresh w ]> store /\
     read (fst (sendOtp v store (Some email) w)) email = Held (fresh w) /\
     forall other, other <> email ->
       fst (sendOtp v store (Some email) w) !! other = store !! other) /\
  (forall e c t k r',
     fst (verifyOtp store e c t) !! k = Some r' -> store !! k = Some r') /\
  (forall t k r', sweep t store !! k = Some r' -> store !! k = Some r') /\
  (run store ops !! email = Some r ->
   lastIssued email ops = Some r \/
   (lastIssued email ops = None /\ store !! email = Some r)).
Proof.
  intros He. split; [|split; [|split]].
  - intros v w. rewrite (sendOtp_store _ _ _ _ He). split; [done|]. split.
    + apply read_own, lookup_insert_eq.
    + intros other Hne. by rewrite lookup_insert_ne.
  - intros e c t k r'. apply verifyOtp_sub.
  - intros t k r'. apply sweep_sub.
  - apply run_lookup.
Qed.

Lemma store_holds_latest_issuance_witness :
  read (fst (sendOtp Merged oneRecord (Some "u@x.com") worldDown)) "u@x.com"
    = Held {| otp := "550000"; expiresAt := 301000 |} /\
  lastIssued "u@x.com"
    [SendOtp Merged (Some "u@x.com") world0; Sweep 500;
     SendOtp Merged (Some "u@x.com") world1;
     VerifyOtp (Some "u@x.com") (Some "000000") 2000]
  = Some {| otp := "550000"; expiresAt := 301000 |}.
Proof.
  split.
  - destruct (store_holds_latest_issuance oneRecord [] "u@x.com"
                {| otp := "123456"; expiresAt := 300000 |}) as (H & _);
      [discriminate|].
    destruct (H Merged worldDown) as (_ & Hr & _). exact Hr.
  - destruct (store_holds_latest_issuance ∅
                [SendOtp Merged (Some "u@x.com") world0; Sweep 500;
                 SendOtp Merged (Some "u@x.com") world1;
                 VerifyOtp (Some "u@x.com") (Some "000000") 2000]
                "u@x.com" {| otp := "550000"; expiresAt := 301000 |})
      as (_ & _ & _ & H); [discriminate|].
    destruct H as [H|[H _]].
    + vm_compute. reflexivity.
    + exact H.
    + vm_compute in H. discriminate H.
Defined.

(** C10.  When the transport rejects the OTP mail, [/send-otp]
    answers 500 "Failed to send OTP", yet the store already holds the
    freshly generated record, and a verification with that code, at
    any instant up to the expiry, succeeds. *)
Theorem failed_delivery_leaves_record (v : Sender) (store : OtpStore)
    (email reason : string) (w : World) (t : Z) :
  email <> "" ->
  sendMail w = Rejected reason ->
  t <= now w + 5 * 60 * 1000 ->
  let out := sendOtp v store (Some email) w in
  snd out = statusJson 500 false "Failed to send OTP" /\
  fst out !! email = Some (fresh w) /\
  verifyOtp (fst out) (Some email) (Some (generateOtp (random w))) t
    = (unset email (fst out), verified).
Proof.
  intros He Hm Ht out. subst out.
  rewrite (sendOtp_store _ _ _ _ He).
  split; [|split].
  - unfold sendOtp. rewrite (truthy_Some _ He), Hm. reflexivity.
  - apply lookup_insert_eq.
  - rewrite (verifyOtp_held _ _ _ _ (fresh w) He (generateOtp_nonempty _))
      by apply lookup_insert_eq.
    cbn [fresh expiresAt otp].
    destruct (t >? now w + 5 * 60 * 1000) eqn:E; [lia|].
    rewrite String.eqb_refl. reflexivity.
Qed.

Lemma failed_delivery_leaves_record_witness :
  snd (sendOtp Merged ∅ (Some "u@x.com") worldDown)
    = statusJson 500 false "Failed to send OTP" /\
  snd (verifyOtp (fst (sendOtp Merged ∅ (Some "u@x.com") worldDown))
                 (Some "u@x.com") (Some "550000") 301000) = verified.
Proof.
  destruct (failed_delivery_leaves_record Merged ∅ "u@x.com" "ECONNREFUSED"
              worldDown 301000) as (H1 & _ & H3).
  - discriminate.
  - reflexivity.
  - simpl. lia.
  - split; [exact H1|].
    change (generateOtp (random worldDown)) with "550000" in H3.
    rewrite H3. reflexivity.
Defined.

(** *** The audit entry *)

(** In the merged server the audit write cannot fail the issuance:
    once the mail is delivered the answer is success, whether the
    document store is absent, accepts the entry or rejects it. *)
Lemma merged_audit_is_best_effort (store : OtpStore) (email : string) (w : World) :
  email <> "" -> sendMail w = Resolved ->
  snd (sendOtp Merged store (Some email) w) = json true "OTP sent".
Proof.
  intros He Hm. unfold sendOtp. rewrite (truthy_Some _ He), Hm.
  unfold audit. destruct (db w), (addDoc w); reflexivity.
Qed.

(** C6, at the input where the code departs from it.  In [mail.js]
    the mail is delivered, the audit write is rejected, and the
    caller is told 500 "Failed to send OTP"; the merged server
    answers success on the same input. *)
Theorem mailjs_audit_failure_surfaces :
  snd (sendOtp MailJs ∅ (Some "u@x.com") worldAuditDown)
    = statusJson 500 false "Failed to send OTP" /\
  snd (sendOtp Merged ∅ (Some "u@x.com") worldAuditDown)
    = json true "OTP sent".
Proof. split; reflexivity. Qed.

(** *** The code *)

(** C9.  Whatever binary64 number in [[0, 1)] the random source
    returns, the generated code is a string of exactly six decimal
    digits, and the integer it spells lies between 100000 and 999999. *)
Theorem otp_is_six_digits (random : Q) :
  (0 <= random)%Q -> (random < 1)%Q -> (round64 random == random)%Q ->
  String.length (generateOtp random) = 6%nat /\
  allDigits (generateOtp random) = true /\
  readDigits 0 (generateOtp random) = otpNumber random /\
  100000 <= readDigits 0 (generateOtp random) <= 999999.
Proof.
  intros H0 H1 Hd.
  pose proof (Binary64Facts.otpNumber_range random H0 H1 Hd) as Hn.
  destruct (toString_six_digits (otpNumber random) Hn) as (Hl & Ha & Hr).
  unfold generateOtp. rewrite Hr. auto.
Qed.

Lemma otp_is_six_digits_witness :
  generateOtp largestDraw = "999999" /\
  String.length (generateOtp largestDraw) = 6%nat /\
  allDigits (generateOtp largestDraw) = true.
Proof.
  destruct (otp_is_six_digits largestDraw) as (Hl & Ha & _).
  - vm_compute. discriminate.
  - vm_compute. reflexivity.
  - vm_compute. reflexivity.
  - split; [vm_compute; reflexivity|]. split; [exact Hl|exact Ha].
Defined.

Example otp_of_smallest_draw : generateOtp 0 = "100000".
Proof. vm_compute. reflexivity. Qed.

End OtpFacts.

(** ** The retrying call *)

Module BackoffFacts.
Import Backoff.

(** The loop never runs out of fuel. *)
Lemma loop_total (v : Flavour) (fetch : nat -> Fetched) (maxRetries : Z)
    (fuel : nat) (attempt backoffTime : Z) (calls : nat) (delays : list Z) :
  maxRetries - attempt <= Z.of_nat fuel ->
  exists r, loop v fetch maxRetries fuel attempt backoffTime calls delays = Some r.
Proof.
  revert attempt backoffTime calls delays.
  induction fuel as [|fuel IH]; intros attempt backoffTime calls delays Hf.
  - simpl. destruct (attempt <? maxRetries) eqn:E; [lia|eauto].
  - cbn [loop]. destruct (attempt <? maxRetries) eqn:E; [|eauto].
    assert (exists r, loop v fetch maxRetries fuel (attempt + 1)
                        (backoffTime * 2) (S calls) (delays ++ [backoffTime])
                      = Some r) as Hagain by (apply IH; lia).
    destruct (fetch calls) as [reason|status body].
    + destruct (attempt >=? maxRetries - 1); eauto.
    + destruct (ok status).
      * destruct body; [eauto|]. destruct (attempt >=? maxRetries - 1); eauto.
      * destruct (retryable status); [eauto|].
        destruct (attempt >=? maxRetries - 1); eauto.
Qed.

Lemma fetchWithBackoff_total (v : Flavour) (fetch : nat -> Fetched)
    (maxRetries : Z) :
  exists r, fetchWithBackoff v fetch maxRetries = Some r.
Proof. apply loop_total. lia. Qed.

(** A status that is neither 2xx nor 429 nor 5xx, met before the last
    attempt: the error thrown in the [try] block lands in the [catch]
    of the same pass, which waits and goes round again. *)
Lemma other_status_is_retried (v : Flavour) (fetch : nat -> Fetched)
    (maxRetries : Z) (fuel : nat) (attempt backoffTime : Z) (calls : nat)
    (delays : list Z) (status : Z) (body : Body) :
  attempt < maxRetries - 1 ->
  fetch calls = Response status body ->
  ok status = false -> retryable status = false ->
  loop v fetch maxRetries (S fuel) attempt backoffTime calls delays =
  loop v fetch maxRetries fuel (attempt + 1) (backoffTime * 2) (S calls)
       (delays ++ [backoffTime]).
Proof.
  intros Ha Hf Hok Hre. cbn [loop]. rewrite Hf, Hok, Hre.
  destruct (attempt <? maxRetries) eqn:E1; [|lia].
  destruct (attempt >=? maxRetries - 1) eqn:E2; [lia|reflexivity].
Qed.

(** On the last attempt the same status ends the call, with the
    response body as the message. *)
Lemma other_status_last_attempt (v : Flavour) (fetch : nat -> Fetched)
    (maxRetries : Z) (fuel : nat) (backoffTime : Z) (calls : nat)
    (delays : list Z) (status : Z) (text : string) :
  0 < maxRetries ->
  fetch calls = Response status (Json text) ->
  ok status = false -> retryable status = false ->
  loop v fetch maxRetries (S fuel) (maxRetries - 1) backoffTime calls delays =
  Some {| outcome := Thrown text; delays := delays; calls := S calls |}.
Proof.
  intros Hm Hf Hok Hre. cbn [loop]. rewrite Hf, Hok, Hre.
  destruct (maxRetries - 1 <? maxRetries) eqn:E1; [|lia].
  destruct (maxRetries - 1 >=? maxRetries - 1) eqn:E2; [reflexivity|lia].
Qed.

Lemma schedule_S (n : nat) :
  schedule (S n) = (schedule n ++ [1000 * 2 ^ Z.of_nat n])%list.
Proof. unfold schedule. by rewrite seq_S, map_app. Qed.

(** Whatever the endpoint does, the waits of a call follow the
    schedule, one wait between two fetches, and there are never more
    fetches than [maxRetries]. *)
Lemma loop_schedule (v : Flavour) (fetch : nat -> Fetched) (maxRetries : Z)
    (fuel a : nat) (r : Run) :
  loop v fetch maxRetries fuel (Z.of_nat a) (1000 * 2 ^ Z.of_nat a) a (schedule a)
    = Some r ->
  exists n, (a <= n)%nat /\ delays r = schedule n /\
    (calls r = n \/ calls r = S n) /\
    (Z.of_nat (calls r) <= maxRetries \/ calls r = a).
Proof.
  revert a r; induction fuel as [|fuel IH]; intros a r; cbn [loop].
  - destruct (Z.of_nat a <? maxRetries); [discriminate|].
    intros [= <-]. exists a. simpl. auto.
  - destruct (Z.of_nat a <? maxRetries) eqn:E.
    2: { intros [= <-]. exists a. simpl. auto. }
    assert (forall r',
      loop v fetch maxRetries fuel (Z.of_nat a + 1) (1000 * 2 ^ Z.of_nat a * 2)
           (S a) (schedule a ++ [1000 * 2 ^ Z.of_nat a]) = Some r' ->
      exists n, (a <= n)%nat /\ delays r' = schedule n /\
        (calls r' = n \/ calls r' = S n) /\
        (Z.of_nat (calls r') <= maxRetries \/ calls r' = a)) as Hagain.
    { intros r'. rewrite <- schedule_S.
      replace (Z.of_nat a + 1) with (Z.of_nat (S a)) by lia.
      replace (1000 * 2 ^ Z.of_nat a * 2) with (1000 * 2 ^ Z.of_nat (S a)).
      2: { rewrite Nat2Z.inj_succ, Z.pow_succ_r by lia. lia. }
      intros H. destruct (IH _ _ H) as (n & Hn & Hd & Hc & Hm).
      exists n. repeat split; [lia|done|done|].
      destruct Hm as [Hm|Hm]; [by left|]. left. lia. }
    assert (forall message,
      Some {| outcome := Thrown message; delays := schedule a; calls := S a |}
        = Some r ->
      exists n, (a <= n)%nat /\ delays r = schedule n /\
        (calls r = n \/ calls r = S n) /\
        (Z.of_nat (calls r) <= maxRetries \/ calls r = a)) as Hstop.
    { intros message [= <-]. exists a. simpl. repeat split; [lia|auto|]. left. lia. }
    destruct (fetch a) as [reason|status body].
    + destruct (Z.of_nat a >=? maxRetries - 1); [apply Hstop|apply Hagain].
    + destruct (ok status).
      * destruct body as [text|reason].
        -- intros [= <-]. exists a. simpl. repeat split; [lia|auto|]. left. lia.
        -- destruct (Z.of_nat a >=? maxRetries - 1); [apply Hstop|apply Hagain].
      * destruct (retryable status); [apply Hagain|].
        destruct (Z.of_nat a >=? maxRetries - 1); [apply Hstop|apply Hagain].
Qed.

Lemma fetchWithBackoff_schedule (v : Flavour) (fetch : nat -> Fetched)
    (maxRetries : Z) (r : Run) :
  fetchWithBackoff v fetch maxRetries = Some r ->
  exists n, delays r = schedule n /\ (calls r = n \/ calls r = S n) /\
    Z.of_nat (calls r) <= Z.max maxRetries 0.
Proof.
  intros H. destruct (loop_schedule v fetch maxRetries _ 0 r H)
    as (n & _ & Hd & Hc & Hm).
  exists n. repeat split; [done|done|]. destruct Hm as [Hm| ->]; lia.
Qed.

(** C1, at the input where the code departs from it.  The first
    response is a 400; the call does not fail: it waits the first
    back-off delay, fetches a second time and returns that response. *)
Theorem bad_request_is_retried :
  fetchWithBackoff Unified badRequestThenOk 5 =
    Some {| outcome := Returned "[]"; delays := [1000]; calls := 2 |} /\
  fetchWithBackoff Standalone badRequestThenOk 5 =
    Some {| outcome := Returned "[]"; delays := [1000]; calls := 2 |}.
Proof. split; reflexivity. Qed.

(** A 404 on every attempt: five fetches and four delays before the
    body is surfaced. *)
Example not_found_five_times :
  fetchWithBackoff Unified (fun _ => Response 404 (Json "{}")) 5 =
    Some {| outcome := Thrown "{}"; delays := [1000; 2000; 4000; 8000];
            calls := 5 |}.
Proof. reflexivity. Qed.

(** A 429 on every attempt: the schedule doubles from one second, and
    after five attempts the terminal error is thrown. *)
Example too_many_requests_schedule :
  fetchWithBackoff Unified (fun _ => Response 429 (Json "{}")) 5 =
    Some {| outcome := Thrown "Failed after max retries";
            delays := [1000; 2000; 4000; 8000; 16000]; calls := 5 |}.
Proof. reflexivity. Qed.

(** A network failure on every attempt: four delays, then the last
    rejection is rethrown. *)
Example network_down_schedule :
  fetchWithBackoff Unified (fun _ => NetworkError "ECONNRESET") 5 =
    Some {| outcome := Thrown "ECONNRESET";
            delays := [1000; 2000; 4000; 8000]; calls := 5 |}.
Proof. reflexivity. Qed.

End BackoffFacts.

(** ** Text *)

Module TextFacts.
Import Text.

(** [append] is kept folded by the simplifier; these are its equations. *)
Lemma append_nil_l (s : string) : "" ++ s = s.
Proof. reflexivity. Qed.

Lemma append_cons (c : ascii) (s t : string) : String c s ++ t = String c (s ++ t).
Proof. reflexivity. Qed.

Lemma append_nil_r (s : string) : s ++ "" = s.
Proof.
  induction s as [|c s IH]; [reflexivity|]. by rewrite append_cons, IH.
Qed.

Lemma append_assoc (a b c : string) : (a ++ b) ++ c = a ++ (b ++ c).
Proof.
  induction a as [|x a IH]; [reflexivity|]. by rewrite !append_cons, IH.
Qed.

(** The defining equation of the scan. *)
Lemma replaceAll_unfold (template before s : string) :
  replaceAll template before s =
    match stripPrefix token s with
    | Some after =>
        getSubstitution token before after template
          ++ replaceAll template (before ++ token) after
    | None =>
        match s with
        | EmptyString => EmptyString
        | String c s' => String c (replaceAll template (before ++ String c "") s')
        end
    end.
Proof.
  funelim (replaceAll template before s).
  - rewrite e. reflexivity.
  - reflexivity.
  - rewrite e. reflexivity.
Qed.

Lemma stripPrefix_app (p s : string) : stripPrefix p (p ++ s) = Some s.
Proof.
  induction p as [|a p IH]; simpl; [reflexivity|].
  by rewrite Ascii.eqb_refl.
Qed.

Lemma stripPrefix_Some (p s r : string) : stripPrefix p s = Some r -> s = p ++ r.
Proof.
  revert s; induction p as [|a p IH]; intros s; simpl.
  - by intros [= ->].
  - destruct s as [|b s]; [done|].
    destruct (Ascii.eqb_spec a b) as [->|]; [|done].
    intros H. by rewrite (IH _ H).
Qed.

(** One step of the comparison of [[Name]] with a text whose first
    characters are unknown: either the next character differs, or the
    text ends there, or the comparison goes one character further. *)
Ltac crack :=
  lazymatch goal with
  | |- (if Ascii.eqb ?a ?c then _ else _) = None -> _ =>
      destruct (Ascii.eqb_spec a c) as [<-|];
      [ | let E := fresh in intros _ E; discriminate E ]
  | |- match ?s with EmptyString => _ | String _ _ => _ end = None -> _ =>
      destruct s;
      [ let E := fresh in intros _ E; discriminate E
      | rewrite ?append_cons; cbn [stripPrefix] ]
  | |- Some _ = None -> _ => let P := fresh in intros P; discriminate P
  end.

(** A piece of text that holds no placeholder, followed by a
    placeholder: the scan cannot find a match before that placeholder.
    No match lies inside the piece, and none can straddle its end,
    because no proper end of [[Name]] is a beginning of it. *)
Lemma no_match_before (seg rest : string) (c : ascii) :
  includes token (String c seg) = false ->
  stripPrefix token (String c seg ++ token ++ rest) = None.
Proof.
  intros H. destruct (stripPrefix token (String c seg ++ token ++ rest)) as [r|] eqn:E;
    [exfalso|reflexivity].
  revert H E. cbn [includes].
  destruct (stripPrefix token (String c seg)) eqn:P; [discriminate|]. intros _.
  revert P. unfold token. rewrite !append_cons. cbn [stripPrefix].
  repeat crack.
Qed.

Lemma includes_cons (p : string) (c : ascii) (s : string) :
  includes p (String c s) = false ->
  stripPrefix p (String c s) = None /\ includes p s = false.
Proof.
  cbn [includes]. destruct (stripPrefix p (String c s)); [discriminate|done].
Qed.

(** Text that holds no placeholder is copied as it is. *)
Lemma replaceAll_plain (template before seg : string) :
  includes token seg = false -> replaceAll template before seg = seg.
Proof.
  revert before; induction seg as [|c seg IH]; intros before H.
  - rewrite replaceAll_unfold. reflexivity.
  - apply includes_cons in H as [H1 H2].
    rewrite replaceAll_unfold, H1, IH by done. reflexivity.
Qed.

(** Text that holds no placeholder, then a placeholder: the text is
    copied, the placeholder gives way to its replacement, and the scan
    goes on behind it. *)
Lemma replaceAll_match (template before seg rest : string) :
  includes token seg = false ->
  replaceAll template before (seg ++ token ++ rest) =
    seg ++ getSubstitution token (before ++ seg) rest template
        ++ replaceAll template (before ++ seg ++ token) rest.
Proof.
  revert before; induction seg as [|c seg IH]; intros before H.
  - rewrite !append_nil_l, append_nil_r, replaceAll_unfold, stripPrefix_app.
    reflexivity.
  - rewrite replaceAll_unfold, (no_match_before _ _ _ H).
    apply includes_cons in H as [_ H].
    rewrite append_cons at 1. rewrite IH by done.
    rewrite !append_assoc, !append_cons, !append_nil_l. reflexivity.
Qed.

Lemma hasPattern_cons (c : ascii) (s : string) :
  hasPattern (String c s) = false ->
  hasPattern s = false /\
  (c = "$"%char -> forall d s', s = String d s' ->
   Ascii.eqb d "$" = false /\ Ascii.eqb d "&" = false /\
   Ascii.eqb d "`" = false /\ Ascii.eqb d "'" = false).
Proof.
  unfold hasPattern. intros H.
  apply orb_false_elim in H as [H H4]. apply orb_false_elim in H as [H H3].
  apply orb_false_elim in H as [H1 H2].
  apply includes_cons in H1 as [P1 H1]. apply includes_cons in H2 as [P2 H2].
  apply includes_cons in H3 as [P3 H3]. apply includes_cons in H4 as [P4 H4].
  split; [by rewrite H1, H2, H3, H4|].
  intros -> d s' ->. cbn -[Ascii.eqb] in P1, P2, P3, P4.
  rewrite Ascii.eqb_refl in P1, P2, P3, P4.
  rewrite !(Ascii.eqb_sym d).
  repeat split.
  - by destruct (Ascii.eqb "$" d).
  - by destruct (Ascii.eqb "&" d).
  - by destruct (Ascii.eqb "`" d).
  - by destruct (Ascii.eqb "'" d).
Qed.

(** A replacement string without such a pattern is inserted as it is. *)
Lemma getSubstitution_plain (matched before after template : string) :
  hasPattern template = false ->
  getSubstitution matched before after template = template.
Proof.
  induction template as [|c t IH]; [reflexivity|].
  intros H. apply hasPattern_cons in H as [Ht Hd]. specialize (IH Ht).
  cbn [getSubstitution]. destruct (Ascii.eqb_spec c "$") as [->|Hc].
  - destruct t as [|d t']; [reflexivity|].
    destruct (Hd eq_refl d t' eq_refl) as (E1 & E2 & E3 & E4).
    rewrite E1, E2, E3, E4. by rewrite IH.
  - by rewrite IH.
Qed.

(** The scan of a text given by its pieces: the placeholders between
    the pieces give way to the name. *)
Lemma replaceAll_join (name before : string) (segs : list string) :
  hasPattern name = false ->
  Forall (fun s => includes token s = false) segs ->
  replaceAll name before (join token segs) = join name segs.
Proof.
  intros Hn Hs. revert before. induction Hs as [|s segs Hs _ IH]; intros before.
  - rewrite replaceAll_unfold. reflexivity.
  - destruct segs as [|s2 segs].
    + by apply replaceAll_plain.
    + change (join token (s :: s2 :: segs)) with (s ++ token ++ join token (s2 :: segs)).
      change (join name (s :: s2 :: segs)) with (s ++ name ++ join name (s2 :: segs)).
      rewrite replaceAll_match, IH, getSubstitution_plain by done. reflexivity.
Qed.

Lemma includes_suffix (p : string) (c : ascii) (s : string) :
  includes p (String c s) = false -> includes p s = false.
Proof. intros H. by apply includes_cons in H as [_ H]. Qed.

Lemma includes_stripPrefix_rest (s r : string) :
  includes token s = false -> forall c, stripPrefix token (String c s) = Some r ->
  includes token r = false.
Proof.
  intros H c E. apply stripPrefix_Some in E. unfold token in E.
  rewrite !append_cons, append_nil_l in E. injection E as -> ->.
  repeat apply includes_suffix in H. exact H.
Qed.

(** Every text is a list of placeholder-free pieces with a placeholder
    between each two neighbours. *)
Lemma segments_exist (html : string) :
  exists segs, segs <> [] /\
    Forall (fun s => includes token s = false) segs /\ html = join token segs.
Proof.
  induction html as [|c html (segs & Hne & Hs & ->)].
  - exists [""]. repeat split; [done|]. by constructor.
  - destruct segs as [|s segs]; [done|]. apply Forall_cons in Hs as [Hs Hrest].
    destruct (stripPrefix token (String c s)) as [r|] eqn:E.
    + exists ("" :: r :: segs). split; [done|]. split.
      * constructor; [reflexivity|]. constructor; [|done].
        by eapply includes_stripPrefix_rest.
      * apply stripPrefix_Some in E.
        destruct segs as [|s2 segs]; cbn [join].
        -- by rewrite append_nil_l.
        -- rewrite append_nil_l, <- !append_assoc, <- E, append_cons. reflexivity.
    + exists (String c s :: segs). split; [done|]. split.
      * constructor; [|done]. cbn [includes]. by rewrite E.
      * destruct segs as [|s2 segs]; cbn [join]; by rewrite ?append_cons.
Qed.

Lemma hasChar_app (c : ascii) (a b : string) :
  hasChar c (a ++ b) = hasChar c a || hasChar c b.
Proof.
  induction a as [|x a IH]; [reflexivity|].
  rewrite append_cons. cbn [hasChar]. rewrite IH. by rewrite orb_assoc.
Qed.

Lemma includes_token_bracket (s : string) :
  hasChar "[" s = false -> includes token s = false.
Proof.
  induction s as [|c s IH]; [reflexivity|].
  cbn [hasChar]. destruct (Ascii.eqb_spec "[" c) as [|Hne]; [discriminate|].
  cbn [orb]. intros H. cbn [includes token stripPrefix].
  destruct (Ascii.eqb_spec "[" c); [done|]. by apply IH.
Qed.

Lemma hasChar_join (c : ascii) (sep : string) (segs : list string) :
  hasChar c sep = false ->
  Forall (fun s => hasChar c s = false) segs ->
  hasChar c (join sep segs) = false.
Proof.
  intros Hsep Hs. induction Hs as [|s segs Hs Hrest IH]; [reflexivity|].
  destruct segs as [|s2 segs]; [done|].
  change (join sep (s :: s2 :: segs)) with (s ++ sep ++ join sep (s2 :: segs)).
  by rewrite !hasChar_app, Hs, Hsep, IH.
Qed.

End TextFacts.

(** ** Share links *)

Module UrlFacts.
Import Text TextFacts Url.

Lemma segment_stop (id rest : string) :
  hasChar "/" id = false -> segment (id ++ String "/" rest) = id.
Proof.
  induction id as [|c id IH]; [reflexivity|].
  cbn [hasChar]. rewrite append_cons. cbn [segment].
  rewrite (Ascii.eqb_sym "/" c). destruct (Ascii.eqb c "/"); [discriminate|].
  cbn [orb]. intros H. by rewrite (IH H).
Qed.

(** The path of a [/file/d/<id>/view] link: the pattern finds the
    identifier. *)
Lemma matchD_file (id : string) :
  id <> "" -> hasChar "/" id = false ->
  matchD ("/file/d/" ++ id ++ "/view") = Some id.
Proof.
  intros Hne Hs.
  change ("/file/d/" ++ id ++ "/view")
    with (String "/" (String "f" (String "i" (String "l" (String "e"
           (String "/" (String "d" (String "/" (id ++ String "/" "view"))))))))).
  cbn [matchD stripPrefix]. cbn.
  rewrite (segment_stop _ _ Hs). destruct id; [done|reflexivity].
Qed.

(** C7 (as amended).  Whatever the parser, and for every string
    [url]:
    - if the parser rejects [url], the function returns [url];
    - if the host name does not contain [drive.google.com], it returns
      [url];
    - if the host name does, and the parsed link supplies a non-empty
      identifier in one of the three shapes, it returns
      [https://drive.google.com/uc?export=view&id=] followed by that
      identifier, as the parser reports it: the segment of the path
      as it is written there, the value of the [id] parameter as it
      is decoded;
    - so two links that supply the same parsed identifier, each in any
      of the three shapes, are rewritten to the same link.
    The function is total: nothing it does can throw past its [catch]. *)
Theorem normalizeImageUrl_spec (parseURL : string -> option URL) (url : string) :
  (parseURL url = None -> normalizeImageUrl parseURL url = url) /\
  (forall u, parseURL url = Some u ->
     includes "drive.google.com" (hostname u) = false ->
     normalizeImageUrl parseURL url = url) /\
  (forall u id, parseURL url = Some u ->
     includes "drive.google.com" (hostname u) = true ->
     id <> "" -> Supplies u id ->
     normalizeImageUrl parseURL url
     = "https://drive.google.com/uc?export=view&id=" ++ id) /\
  (forall url' u u' id, parseURL url = Some u -> parseURL url' = Some u' ->
     includes "drive.google.com" (hostname u) = true ->
     includes "drive.google.com" (hostname u') = true ->
     id <> "" -> Supplies u id -> Supplies u' id ->
     normalizeImageUrl parseURL url = normalizeImageUrl parseURL url').
Proof.
  assert (forall url u id, parseURL url = Some u ->
            includes "drive.google.com" (hostname u) = true ->
            id <> "" -> Supplies u id ->
            normalizeImageUrl parseURL url
            = "https://drive.google.com/uc?export=view&id=" ++ id) as Hid.
  { clear url. intros url u id Hu Hh Hne Hsup. unfold normalizeImageUrl.
    rewrite Hu, Hh. destruct Hsup as [Hp Hs|Hp Hg|Hp Hg]; rewrite Hp.
    + rewrite (matchD_file _ Hne Hs), !(truthy_Some _ Hne). reflexivity.
    + cbn [matchD stripPrefix]. cbn. rewrite Hg, (truthy_Some _ Hne). reflexivity.
    + cbn. rewrite Hg, (truthy_Some _ Hne). reflexivity. }
  split; [|split; [|split]].
  - unfold normalizeImageUrl. intros ->. reflexivity.
  - unfold normalizeImageUrl. intros u -> ->. reflexivity.
  - intros u id. apply Hid.
  - intros url' u u' id Hu Hu' Hh Hh' Hne Hs Hs'.
    by rewrite (Hid url u id), (Hid url' u' id).
Qed.

(** C7 as stated fails where the identifier is written with a percent
    escape: the path keeps the escape, the query parameter is decoded,
    and the same identifier text gives two different links. *)
Lemma escaped_identifier_two_links :
  normalizeImageUrl nodeParse "https://drive.google.com/file/d/a%20b/view"
    = "https://drive.google.com/uc?export=view&id=a%20b" /\
  normalizeImageUrl nodeParse "https://drive.google.com/open?id=a%20b"
    = "https://drive.google.com/uc?export=view&id=a b" /\
  normalizeImageUrl nodeParse "https://drive.google.com/file/d/a%20b/view"
    <> normalizeImageUrl nodeParse "https://drive.google.com/open?id=a%20b".
Proof. split; [reflexivity|]. split; [reflexivity|discriminate]. Qed.

(** A recognised host without an identifier: the link is left alone. *)
Lemma normalizeImageUrl_no_id (parseURL : string -> option URL) (url : string)
    (u : URL) :
  parseURL url = Some u ->
  matchD (pathname u) = None -> truthy (get "id" (searchParams u)) = false ->
  normalizeImageUrl parseURL url = url.
Proof.
  intros Hp Hm Hg. unfold normalizeImageUrl. rewrite Hp, Hm. cbn [truthy].
  rewrite Hg. destruct (includes _ _); [|done].
  by destruct (get "id" (searchParams u)).
Qed.

Lemma normalizeImageUrl_spec_witness :
  normalizeImageUrl nodeParse
    "https://drive.google.com/file/d/1AbC_d-9/view?usp=sharing"
    = "https://drive.google.com/uc?export=view&id=1AbC_d-9" /\
  normalizeImageUrl nodeParse "https://drive.google.com/open?id=1AbC_d-9"
    = "https://drive.google.com/uc?export=view&id=1AbC_d-9" /\
  normalizeImageUrl nodeParse
    "https://drive.google.com/uc?export=download&id=1AbC_d-9"
    = "https://drive.google.com/uc?export=view&id=1AbC_d-9" /\
  normalizeImageUrl nodeParse "https://example.com/logo.png"
    = "https://example.com/logo.png" /\
  normalizeImageUrl nodeParse "not a url" = "not a url".
Proof.
  split; [|split; [|split; [|split]]].
  - destruct (normalizeImageUrl_spec nodeParse
                "https://drive.google.com/file/d/1AbC_d-9/view?usp=sharing")
      as (_ & _ & H & _).
    apply (H _ "1AbC_d-9" eq_refl eq_refl); [discriminate|].
    by apply FromFilePath.
  - destruct (normalizeImageUrl_spec nodeParse
                "https://drive.google.com/open?id=1AbC_d-9") as (_ & _ & H & _).
    apply (H _ "1AbC_d-9" eq_refl eq_refl); [discriminate|].
    by apply FromOpen.
  - destruct (normalizeImageUrl_spec nodeParse
                "https://drive.google.com/uc?export=download&id=1AbC_d-9")
      as (_ & _ & H & _).
    apply (H _ "1AbC_d-9" eq_refl eq_refl); [discriminate|].
    by apply FromUc.
  - destruct (normalizeImageUrl_spec nodeParse "https://example.com/logo.png")
      as (_ & H & _).
    by apply (H _ eq_refl).
  - destruct (normalizeImageUrl_spec nodeParse "not a url") as (H & _).
    by apply H.
Defined.

End UrlFacts.

(** ** The bulk sender *)

Module BulkFacts.
Import Text TextFacts Bulk.

Lemma resolveEmail_truthy (r : Row) : truthy (resolveEmail r) = hasEmail r.
Proof.
  unfold resolveEmail, orElse, hasEmail.
  destruct (truthy (r !! "email")) eqn:E; [by rewrite E|reflexivity].
Qed.

Section LoopFacts.

Variable sendMail : nat -> Mail -> Settled.
Variable user : string.
Variable v : Handler.
Variable b : Batch.

(** A row without an email is skipped: nothing changes. *)
Lemma pass_skip (st : Progress) (r : Row) :
  hasEmail r = false -> pass sendMail user v b st r = st.
Proof.
  intros H. unfold pass. rewrite resolveEmail_truthy, H.
  by destruct (resolveEmail r).
Qed.

(** A row with an email: one more send is logged, and it is counted. *)
Lemma pass_send (st : Progress) (r : Row) :
  hasEmail r = true ->
  exists email,
    resolveEmail r = Some email /\
    let mail := mailFor v user b r email in
    let outcome := sendMail (List.length (log st)) mail in
    log (pass sendMail user v b st r) = (log st ++ [(mail, outcome)])%list /\
    results (pass sendMail user v b st r) = record v (results st) email outcome.
Proof.
  intros H. unfold pass. rewrite resolveEmail_truthy, H.
  destruct (resolveEmail r) as [email|] eqn:E.
  - exists email. by repeat split.
  - rewrite <- resolveEmail_truthy, E in H. discriminate.
Qed.

Lemma start_sound : Sound sendMail start.
Proof. split; try reflexivity. intros k m o. simpl. by rewrite lookup_nil. Qed.

Lemma pass_sound (st : Progress) (r : Row) :
  Sound sendMail st -> Sound sendMail (pass sendMail user v b st r).
Proof.
  intros [Hf Hn Hs Ho]. destruct (hasEmail r) eqn:E.
  2: { rewrite pass_skip by done. by split. }
  destruct (pass_send st r E) as (email & _ & Hlog & Hres).
  cbv zeta in Hlog, Hres. split; rewrite ?Hlog, ?Hres.
  - rewrite omap_app. cbn [omap]. unfold failureOf at 2. cbn [fst snd].
    destruct (sendMail _ _); cbn [record failures mbind option_bind to];
      rewrite Hf; [by rewrite List.app_nil_r|reflexivity].
  - rewrite omap_app, length_app. cbn [omap]. unfold failureOf at 2. cbn [fst snd].
    destruct (sendMail _ _); cbn [record failed]; rewrite Hn; simpl; lia.
  - rewrite filter_app, length_app. rewrite filter_cons. unfold delivered at 2.
    cbn [fst snd].
    destruct (sendMail _ _); cbn [record sent]; rewrite Hs.
    + rewrite decide_True by done. reflexivity.
    + rewrite decide_False by done. simpl. by rewrite Nat.add_0_r.
  - intros k m o. rewrite lookup_app. destruct (log st !! k) eqn:Ek.
    + intros [= ->]. by apply Ho.
    + apply lookup_ge_None in Ek.
      destruct (k - List.length (log st))%nat as [|n] eqn:Ed; [|done].
      intros [= <- <-]. f_equal. lia.
Qed.

Lemma loop_sound (rows : list Row) (st : Progress) :
  Sound sendMail st -> Sound sendMail (foldl (pass sendMail user v b) st rows).
Proof.
  revert st; induction rows as [|r rows IH]; intros st H; [done|].
  simpl. by apply IH, pass_sound.
Qed.

(** The rows that are sent to, in the order of the file: exactly those
    that have an email, whatever became of the sends before them. *)
Lemma loop_log (rows : list Row) (st : Progress) :
  map (fun e => to e.1) (log (foldl (pass sendMail user v b) st rows))
  = (map (fun e => to e.1) (log st) ++ omap emailOf rows)%list.
Proof.
  revert st; induction rows as [|r rows IH]; intros st.
  - simpl. by rewrite List.app_nil_r.
  - simpl. rewrite IH. unfold emailOf at 2. destruct (hasEmail r) eqn:E.
    + destruct (pass_send st r E) as (email & He & Hlog & _).
      cbv zeta in Hlog. rewrite Hlog, He, map_app, <- List.app_assoc. reflexivity.
    + by rewrite pass_skip.
Qed.

Lemma emailOf_is_Some (r : Row) : is_Some (emailOf r) <-> hasEmail r = true.
Proof.
  unfold emailOf. destruct (hasEmail r) eqn:E.
  - rewrite <- resolveEmail_truthy in E.
    destruct (resolveEmail r); [|done]. split; [done|by eexists].
  - split; [by intros [? ?]|done].
Qed.

Lemma omap_emailOf_length (rows : list Row) :
  List.length (omap emailOf rows)
  = List.length (filter (fun r => hasEmail r = true) rows).
Proof.
  induction rows as [|r rows IH]; [reflexivity|].
  rewrite filter_cons.
  change (omap emailOf (r :: rows))
    with (match emailOf r with
          | Some e => e :: omap emailOf rows
          | None => omap emailOf rows
          end).
  pose proof (emailOf_is_Some r) as H.
  destruct (emailOf r) as [e|].
  - rewrite decide_True by (apply H; by eexists). simpl. by rewrite IH.
  - rewrite decide_False; [done|]. intros E. apply H in E. by destruct E.
Qed.

Lemma log_split (l : list (Mail * Settled)) :
  (List.length (filter (fun e => delivered e = true) l)
   + List.length (omap failureOf l))%nat = List.length l.
Proof.
  induction l as [|[m o] l IH]; [reflexivity|].
  rewrite filter_cons.
  change (omap failureOf ((m, o) :: l))
    with (match failureOf (m, o) with
          | Some f => f :: omap failureOf l
          | None => omap failureOf l
          end).
  unfold failureOf at 1, delivered at 1. cbn [fst snd].
  destruct o.
  - rewrite decide_True by done. simpl. by rewrite IH.
  - rewrite decide_False by done. simpl. rewrite <- IH. lia.
Qed.

(** When no send is delivered, every logged send is in the failure
    list, under the address it was sent to. *)
Lemma all_rejected (l : list (Mail * Settled)) :
  (forall k m o, l !! k = Some (m, o) -> o <> Resolved) ->
  filter (fun e => delivered e = true) l = [] /\
  map email (omap failureOf l) = map (fun e => to e.1) l.
Proof.
  induction l as [|[m o] l IH]; intros H; [done|].
  destruct IH as [IH1 IH2].
  { intros k m' o' Hk. by apply (H (S k) m' o'). }
  pose proof (H 0%nat m o eq_refl) as Ho.
  rewrite filter_cons.
  change (omap failureOf ((m, o) :: l))
    with (match failureOf (m, o) with
          | Some f => f :: omap failureOf l
          | None => omap failureOf l
          end).
  unfold failureOf at 1, delivered at 1. cbn [fst snd].
  destruct o; [done|].
  rewrite decide_False by done. split; [done|]. simpl. by rewrite IH2.
Qed.

End LoopFacts.

(** C3.  For every batch, transport and flavour of the handler, the
    summary's [sent] and [failed] add up to the number of rows that
    have a non-empty email under the key [email] or [Email]; a row
    without one leaves the loop's state, counters included, as it
    was. *)
Theorem sent_plus_failed (sendMail : nat -> Mail -> Settled) (user : string)
    (v : Handler) (b : Batch) :
  let res := results (sendLoop sendMail user v b) in
  (sent res + failed res)%nat
    = List.length (filter (fun r => hasEmail r = true) (recipients b)) /\
  (forall st r, hasEmail r = false -> pass sendMail user v b st r = st).
Proof.
  split; [|intros st r; apply pass_skip].
  unfold sendLoop.
  destruct (loop_sound sendMail user v b (recipients b) start
              (start_sound sendMail)) as [_ Hn Hs _].
  rewrite Hs, Hn, log_split, <- omap_emailOf_length.
  rewrite <- (length_map (fun e => to e.1)), loop_log. reflexivity.
Qed.

(** A request with the CSV file, a subject, a body and at least one
    row, and without image files, reaches the loop with its rows. *)
Lemma prepare_ready (v : Handler) (rt : Runtime) (req : Request) (csv : Upload)
    (rows : list Row) :
  csvFile req = Some csv ->
  truthy (bodySubject req) = true -> truthy (bodyHtml req) = true ->
  readCsv rt csv = inl rows -> rows <> [] ->
  logoFile req = None -> bannerFile req = None ->
  exists b, prepare v rt req = inr b /\ recipients b = rows /\
    Some (batchSubject b) = bodySubject req /\ Some (batchHtml b) = bodyHtml req.
Proof.
  intros Hc Hs Hh Hr Hne Hl Hb. unfold prepare.
  rewrite Hc, Hs, Hh, Hr, Hl, Hb. cbn [negb orb inlineImage].
  destruct rows as [|r rows]; [done|]. cbn [List.length Nat.eqb].
  eexists. split; [reflexivity|]. cbn [recipients batchSubject batchHtml].
  destruct (bodySubject req); [|done]. destruct (bodyHtml req); [|done]. done.
Qed.

(** C2.  Take a request that passes the handler's checks, so that the
    loop is reached.  Then, whatever the transport does,
    - the answer is 200 with [success: true] and the loop's summary;
    - the mails handed to the transport are, in the order of the file,
      one for each row with an email: no rejection ends the loop;
    - the failure list holds [{ email, error: message }] for each send
      the transport rejected, in that order.
    And if the transport delivers nothing at all, the summary is
    [sent: 0], [failed: N] with [N] failure entries, one for each of
    the [N] rows with an email. *)
Theorem failure_never_aborts (v : Handler) (rt : Runtime) (req : Request)
    (b : Batch) :
  prepare v rt req = inr b ->
  let st := sendLoop (transport rt) (account rt) v b in
  let n := List.length (filter (fun r => hasEmail r = true) (recipients b)) in
  sendCsv v rt req = {| status := 200; body := SummaryBody true (results st) |} /\
  map (fun e => to e.1) (log st) = omap emailOf (recipients b) /\
  (forall k m o, log st !! k = Some (m, o) -> o = transport rt k m) /\
  failures (results st) = omap failureOf (log st) /\
  ((forall k m, transport rt k m <> Resolved) ->
     sent (results st) = 0%nat /\ failed (results st) = n /\
     List.length (failures (results st)) = n /\
     map email (failures (results st)) = omap emailOf (recipients b)).
Proof.
  intros Hp st n.
  destruct (loop_sound (transport rt) (account rt) v b (recipients b) start
              (start_sound _)) as [Hf Hn Hs Ho].
  fold (sendLoop (transport rt) (account rt) v b) in Hf, Hn, Hs, Ho. fold st in Hf, Hn, Hs, Ho.
  assert (map (fun e => to e.1) (log st) = omap emailOf (recipients b)) as Hlog.
  { unfold st, sendLoop. by rewrite loop_log. }
  split; [|split; [|split; [|split]]].
  - unfold sendCsv. by rewrite Hp.
  - exact Hlog.
  - exact Ho.
  - exact Hf.
  - intros Hall.
    destruct (all_rejected (log st)) as [Hnone Hemails].
    { intros k m o Hk ->. apply (Hall k m). symmetry. by apply Ho. }
    assert (List.length (omap failureOf (log st)) = n) as Hlen.
    { pose proof (log_split (log st)) as Hsplit.
      rewrite Hnone in Hsplit. simpl in Hsplit. rewrite Hsplit.
      rewrite <- (length_map (fun e => to e.1)), Hlog.
      apply omap_emailOf_length. }
    rewrite Hs, Hn, Hf, Hnone, Hemails, Hlog, Hlen. done.
Qed.

(** *** Personalisation *)

Lemma resolveName_default (dflt : string) (r : Row) :
  truthy (r !! "name") = false -> truthy (r !! "Name") = false ->
  resolveName dflt r = dflt.
Proof.
  intros H1 H2. unfold resolveName, orElse. rewrite H1, H2.
  by destruct (truthy (Some dflt)).
Qed.

(** Text already free of placeholders is left alone. *)
Lemma replaceName_plain (name html : string) :
  includes token html = false -> replaceName name html = html.
Proof. apply replaceAll_plain. Qed.

(** C5 (as amended).  For every body and row, and either default
    name: when the row has no name the resolved name is the default;
    and when the resolved name holds none of the patterns [$$], [$&],
    [$`] and [$'], the body is a list of placeholder-free pieces with a
    placeholder between each two neighbours, the personalised body is
    the same pieces with the name between them (each placeholder
    replaced once, by the name, nothing else touched), and
    personalising a second time changes nothing if the first result
    holds no placeholder, which is so if neither the name nor the
    pieces hold an opening bracket. *)
Theorem personalize_spec (dflt html : string) (r : Row) :
  hasPattern (resolveName dflt r) = false ->
  (truthy (r !! "name") = false -> truthy (r !! "Name") = false ->
   resolveName dflt r = dflt) /\
  exists segs,
    Forall (fun s => includes token s = false) segs /\
    html = join token segs /\
    personalize dflt r html = join (resolveName dflt r) segs /\
    (includes token (personalize dflt r html) = false ->
     personalize dflt r (personalize dflt r html) = personalize dflt r html) /\
    (hasChar "[" (resolveName dflt r) = false ->
     Forall (fun s => hasChar "[" s = false) segs ->
     personalize dflt r (personalize dflt r html) = personalize dflt r html).
Proof.
  intros Hd. split; [apply resolveName_default|].
  destruct (segments_exist html) as (segs & _ & Hs & ->).
  exists segs. unfold personalize, replaceName.
  rewrite (replaceAll_join _ _ _ Hd Hs).
  repeat split; try done.
  - apply replaceAll_plain.
  - intros Hn Hb. apply replaceAll_plain, includes_token_bracket.
    by apply hasChar_join.
Qed.

Lemma personalize_spec_witness :
  exists segs,
    Forall (fun s => includes token s = false) segs /\
    "Hello [Name], dear [Name]!" = join token segs /\
    personalize "" alice "Hello [Name], dear [Name]!" = join "A" segs.
Proof.
  destruct (personalize_spec "" "Hello [Name], dear [Name]!" alice)
    as (_ & segs & H1 & H2 & H3 & _); [reflexivity|].
  exists segs. change (resolveName "" alice) with "A" in H3. done.
Defined.

Example personalize_alice :
  personalize "" alice "Hello [Name], dear [Name]!" = "Hello A, dear A!" /\
  personalize "" nameless "Hello [Name]" = "Hello " /\
  personalize "User" nameless "Hello [Name]" = "Hello User".
Proof. repeat split; reflexivity. Qed.

(** C5 as stated fails: the substitution is not idempotent.  In
    [/send-csv], for a row without a name, removing the placeholder
    from the middle of "[Na[Name]me]" brings a new placeholder
    together, which a second application removes in its turn. *)
Lemma personalize_not_idempotent :
  personalize "" nameless "[Na[Name]me]" = "[Name]" /\
  personalize "" nameless (personalize "" nameless "[Na[Name]me]") = "" /\
  personalize "" nameless (personalize "" nameless "[Na[Name]me]")
    <> personalize "" nameless "[Na[Name]me]".
Proof. split; [reflexivity|split; [reflexivity|discriminate]]. Qed.

(** A name that holds the placeholder has the same effect. *)
Example personalize_name_with_token :
  let r : Row := {[ "email" := "c@x.com"; "name" := "[Name]!" ]} in
  personalize "" r "[Name]" = "[Name]!" /\
  personalize "" r (personalize "" r "[Name]") = "[Name]!!".
Proof. split; reflexivity. Qed.

(** The dollar patterns of [replace]: a name is not always inserted as
    it is written. *)
Example personalize_dollar_patterns :
  personalize "" {[ "name" := "$&" ]} "Hi [Name]." = "Hi [Name]." /\
  personalize "" {[ "name" := "A$$B" ]} "Hi [Name]." = "Hi A$B." /\
  personalize "" {[ "name" := "<$`>" ]} "Hi [Name]." = "Hi <Hi >." /\
  personalize "" {[ "name" := "<$'>" ]} "Hi [Name]." = "Hi <.>." /\
  personalize "" {[ "name" := "$1 $ x" ]} "Hi [Name]." = "Hi $1 $ x.".
Proof. repeat split; reflexivity. Qed.

(** *** Examples of whole requests *)

Lemma failure_never_aborts_witness :
  sendCsv MergedSender (offline [alice; noEmail; nameless]) hello =
    {| status := 200;
       body := SummaryBody true
                 {| sent := 0; failed := 2;
                    failures := [ {| email := "a@x.com"; error := "ECONNREFUSED" |};
                                  {| email := "b@x.com"; error := "ECONNREFUSED" |} ];
                    details := [ DetailFailed "a@x.com" "ECONNREFUSED";
                                 DetailFailed "b@x.com" "ECONNREFUSED" ] |} |}.
Proof.
  destruct (failure_never_aborts MergedSender (offline [alice; noEmail; nameless])
              hello (helloBatch [alice; noEmail; nameless])) as (H & _).
  - vm_compute. reflexivity.
  - rewrite H. vm_compute. reflexivity.
Defined.

(** The scenario of the specification: two rows, the second without
    an email; one mail is sent, and the second row is not counted. *)
Example two_rows_one_sent :
  sendCsv MergedSender (online [alice; noEmail]) hello =
    {| status := 200;
       body := SummaryBody true
                 {| sent := 1; failed := 0; failures := [];
                    details := [DetailSent "a@x.com"] |} |}.
Proof. vm_compute. reflexivity. Qed.

Example empty_csv_is_rejected :
  sendCsv MergedSender (online []) hello =
    {| status := 400; body := ErrorBody "No recipients found in CSV." None |}.
Proof. vm_compute. reflexivity. Qed.

End BulkFacts.

(* ------------------------------------------------------------------ *)
(** ** More on [fetchWithBackoff]                                      *)
(* ------------------------------------------------------------------ *)

Module BackoffMore.
Import Backoff BackoffFacts.

Lemma schedule_pow (a : nat) :
  1000 * 2 ^ Z.of_nat a * 2 = 1000 * 2 ^ Z.of_nat (S a).
Proof. rewrite Nat2Z.inj_succ, Z.pow_succ_r by lia. lia. Qed.

(** One pass that goes round again, in the shape the invariants use. *)
Lemma loop_again (v : Flavour) (fetch : nat -> Fetched) (maxRetries : Z)
    (fuel a : nat) :
  loop v fetch maxRetries fuel (Z.of_nat a + 1) (1000 * 2 ^ Z.of_nat a * 2)
       (S a) (schedule a ++ [1000 * 2 ^ Z.of_nat a])
  = loop v fetch maxRetries fuel (Z.of_nat (S a)) (1000 * 2 ^ Z.of_nat (S a))
         (S a) (schedule (S a)).
Proof.
  rewrite schedule_S, schedule_pow. f_equal. lia.
Qed.

Lemma loop_first_success (v : Flavour) (fetch : nat -> Fetched) (maxRetries : Z)
    (k : nat) (status : Z) (text : string) :
  Z.of_nat k < maxRetries ->
  fetch k = Response status (Json text) -> ok status = true ->
  (forall i, (i < k)%nat -> succeeded (fetch i) = false) ->
  forall d a fuel, (a + d = k)%nat -> (d < fuel)%nat ->
  loop v fetch maxRetries fuel (Z.of_nat a) (1000 * 2 ^ Z.of_nat a) a (schedule a)
  = Some {| outcome := Returned text; delays := schedule k; calls := S k |}.
Proof.
  intros Hk Hf Hok Hbefore. induction d as [|d IH]; intros a fuel Ha Hfuel.
  - assert (a = k) as -> by lia. destruct fuel as [|fuel]; [lia|].
    cbn [loop]. destruct (Z.of_nat k <? maxRetries) eqn:E; [|lia].
    by rewrite Hf, Hok.
  - destruct fuel as [|fuel]; [lia|]. cbn [loop].
    destruct (Z.of_nat a <? maxRetries) eqn:E; [|lia].
    destruct (Z.of_nat a >=? maxRetries - 1) eqn:E'; [lia|].
    rewrite loop_again. rewrite (IH (S a) fuel) by lia.
    pose proof (Hbefore a ltac:(lia)) as Hs. unfold succeeded in Hs.
    destruct (fetch a) as [reason|st body]; [done|].
    destruct body; [rewrite Hs|]; by destruct (ok st), (retryable st).
Qed.

(** X2.  The call returns the first response that is a success, provided it
    comes within [maxRetries] attempts: whatever went wrong before it,
    a network failure, a 429 or 5xx, any other status, a 2xx body that
    is not JSON, was waited out on the schedule. *)
Theorem returns_first_success (v : Flavour) (fetch : nat -> Fetched)
    (maxRetries : Z) (k : nat) (status : Z) (text : string) :
  Z.of_nat k < maxRetries ->
  fetch k = Response status (Json text) -> ok status = true ->
  (forall i, (i < k)%nat -> succeeded (fetch i) = false) ->
  fetchWithBackoff v fetch maxRetries
  = Some {| outcome := Returned text; delays := schedule k; calls := S k |}.
Proof.
  intros Hk Hf Hok Hbefore. unfold fetchWithBackoff.
  apply (loop_first_success v fetch maxRetries k status text Hk Hf Hok Hbefore k 0%nat);
    lia.
Qed.

Lemma returns_first_success_witness :
  fetchWithBackoff Standalone flaky 5
  = Some {| outcome := Returned "{}"; delays := [1000; 2000]; calls := 3 |}.
Proof.
  apply (returns_first_success Standalone flaky 5 2 200 "{}").
  - lia.
  - reflexivity.
  - reflexivity.
  - intros [|[|i]] Hi; [reflexivity|reflexivity|lia].
Defined.

Lemma loop_all_retryable (v : Flavour) (fetch : nat -> Fetched) (maxRetries : Z)
    (n : nat) :
  maxRetries = Z.of_nat n ->
  (forall i, exists status body,
      fetch i = Response status body /\ retryable status = true) ->
  forall d a fuel, (a + d = n)%nat -> (d <= fuel)%nat ->
  loop v fetch maxRetries fuel (Z.of_nat a) (1000 * 2 ^ Z.of_nat a) a (schedule a)
  = Some {| outcome := Thrown (exhausted v); delays := schedule n; calls := n |}.
Proof.
  intros Hm Hall. induction d as [|d IH]; intros a fuel Ha Hfuel.
  - assert (a = n) as -> by lia.
    destruct fuel; cbn [loop]; destruct (Z.of_nat n <? maxRetries) eqn:E; try lia; done.
  - destruct fuel as [|fuel]; [lia|]. cbn [loop].
    destruct (Z.of_nat a <? maxRetries) eqn:E; [|lia].
    destruct (Hall a) as (status & body & -> & Hr).
    assert (ok status = false) as ->.
    { unfold retryable in Hr. unfold ok. lia. }
    rewrite Hr, loop_again. apply IH; lia.
Qed.

(** X3.  When the endpoint answers 429 or 5xx every time, the call makes
    exactly [maxRetries] fetches, waits after each of them, the last
    one included, and throws the terminal error. *)
Theorem retryable_statuses_exhaust (v : Flavour) (fetch : nat -> Fetched)
    (maxRetries : Z) :
  0 <= maxRetries ->
  (forall i, exists status body,
      fetch i = Response status body /\ retryable status = true) ->
  fetchWithBackoff v fetch maxRetries
  = Some {| outcome := Thrown (exhausted v);
            delays := schedule (Z.to_nat maxRetries);
            calls := Z.to_nat maxRetries |}.
Proof.
  intros Hm Hall. unfold fetchWithBackoff.
  apply (loop_all_retryable v fetch maxRetries (Z.to_nat maxRetries) ltac:(lia) Hall
           (Z.to_nat maxRetries) 0%nat); lia.
Qed.

Lemma retryable_statuses_exhaust_witness :
  fetchWithBackoff Unified (fun _ => Response 503 (Json "{}")) 5
  = Some {| outcome := Thrown "Failed after max retries";
            delays := [1000; 2000; 4000; 8000; 16000]; calls := 5 |}.
Proof.
  apply (retryable_statuses_exhaust Unified (fun _ => Response 503 (Json "{}")) 5).
  - lia.
  - intros i. exists 503, (Json "{}"). split; reflexivity.
Defined.

Lemma loop_all_rejected (v : Flavour) (fetch : nat -> Fetched) (reason : nat -> string)
    (maxRetries : Z) (n : nat) :
  maxRetries = Z.of_nat n + 1 ->
  (forall i, fetch i = NetworkError (reason i)) ->
  forall d a fuel, (a + d = n)%nat -> (d < fuel)%nat ->
  loop v fetch maxRetries fuel (Z.of_nat a) (1000 * 2 ^ Z.of_nat a) a (schedule a)
  = Some {| outcome := Thrown (reason n); delays := schedule n; calls := S n |}.
Proof.
  intros Hm Hall. induction d as [|d IH]; intros a fuel Ha Hfuel.
  - assert (a = n) as -> by lia. destruct fuel as [|fuel]; [lia|]. cbn [loop].
    destruct (Z.of_nat n <? maxRetries) eqn:E; [|lia].
    rewrite Hall. destruct (Z.of_nat n >=? maxRetries - 1) eqn:E'; [done|lia].
  - destruct fuel as [|fuel]; [lia|]. cbn [loop].
    destruct (Z.of_nat a <? maxRetries) eqn:E; [|lia].
    rewrite Hall. destruct (Z.of_nat a >=? maxRetries - 1) eqn:E'; [lia|].
    rewrite loop_again. apply IH; lia.
Qed.

(** X4.  When every fetch is rejected at the network level, the call makes
    [maxRetries] fetches with a wait between each two and rethrows the
    last rejection; nothing is waited for after the last attempt. *)
Theorem network_failures_rethrow_last (v : Flavour) (fetch : nat -> Fetched)
    (reason : nat -> string) (maxRetries : Z) :
  1 <= maxRetries ->
  (forall i, fetch i = NetworkError (reason i)) ->
  fetchWithBackoff v fetch maxRetries
  = Some {| outcome := Thrown (reason (Z.to_nat maxRetries - 1)%nat);
            delays := schedule (Z.to_nat maxRetries - 1)%nat;
            calls := Z.to_nat maxRetries |}.
Proof.
  intros Hm Hall. unfold fetchWithBackoff.
  destruct (Z.to_nat maxRetries) as [|n] eqn:En; [lia|].
  replace (S n - 1)%nat with n by lia.
  apply (loop_all_rejected v fetch reason maxRetries n ltac:(lia) Hall n 0%nat); lia.
Qed.

Lemma network_failures_rethrow_last_witness :
  fetchWithBackoff Unified (fun _ => NetworkError "ECONNRESET") 5
  = Some {| outcome := Thrown "ECONNRESET";
            delays := [1000; 2000; 4000; 8000]; calls := 5 |}.
Proof.
  apply (network_failures_rethrow_last Unified (fun _ => NetworkError "ECONNRESET")
           (fun _ => "ECONNRESET") 5).
  - lia.
  - reflexivity.
Defined.

(** X1.  For every endpoint and every [maxRetries] the call comes to an
    end; its waits are an initial stretch of the schedule 1000, 2000,
    4000, ...; it waits between two fetches and at most once more; and
    it never fetches more than [maxRetries] times. *)
Theorem call_ends_on_schedule (v : Flavour) (fetch : nat -> Fetched)
    (maxRetries : Z) :
  exists r n,
    fetchWithBackoff v fetch maxRetries = Some r /\
    delays r = schedule n /\ (calls r = n \/ calls r = S n) /\
    Z.of_nat (calls r) <= Z.max maxRetries 0.
Proof.
  destruct (fetchWithBackoff_total v fetch maxRetries) as [r Hr].
  destruct (fetchWithBackoff_schedule v fetch maxRetries r Hr) as (n & H).
  exists r, n. by split.
Qed.

End BackoffMore.

(* ------------------------------------------------------------------ *)
(** ** More on the OTP service                                         *)
(* ------------------------------------------------------------------ *)

Module OtpMore.
Import Otp OtpFacts.

(** *** The sweep *)

(** X5.  The sweep keeps exactly the own records that expire after
    [now], each as it was, and the record in prototype position, which
    [Object.keys] does not list: every record under another key than
    [__proto__] whose expiry is [now] or earlier is gone, and a record
    issued to [__proto__] is never swept. *)
Theorem sweep_keeps_exactly_live (t : Z) (store : OtpStore) (k : string)
    (r : OtpRecord) :
  sweep t store !! k = Some r <->
  store !! k = Some r /\ (t < expiresAt r \/ k = "__proto__").
Proof.
  rewrite sweep_lookup. destruct (store !! k) as [r'|]; [|split; [done|by intros []]].
  destruct (String.eqb_spec k "__proto__") as [->|Hk].
  - rewrite andb_false_r. split; [intros [= ->]; by auto|by intros []].
  - rewrite andb_true_r. destruct (expiresAt r' <=? t) eqn:E.
    + split; [done|]. intros [[= ->] [H|H]]; [lia|done].
    + split; [intros [= ->]; split; [done|left; lia]|by intros []].
Qed.

(** X6.  Two sweeps in a row are one sweep at the later of the two
    instants, in whichever order they come; so a sweep repeated at the
    same instant changes nothing. *)
Theorem sweep_sweep (t1 t2 : Z) (store : OtpStore) :
  sweep t1 (sweep t2 store) = sweep (Z.max t1 t2) store /\
  sweep t1 (sweep t1 store) = sweep t1 store.
Proof.
  assert (forall a b, sweep a (sweep b store) = sweep (Z.max a b) store) as H.
  { intros a b. apply map_eq. intros k. rewrite !sweep_lookup.
    destruct (store !! k) as [r|]; [|done].
    destruct (String.eqb k "__proto__"); cbn [negb].
    { destruct (expiresAt r <=? b); cbn [andb negb];
        destruct (expiresAt r <=? a); cbn [andb negb];
        destruct (expiresAt r <=? Z.max a b); reflexivity. }
    destruct (expiresAt r <=? b) eqn:E2; cbn [andb negb];
      destruct (expiresAt r <=? a) eqn:E1; cbn [andb negb];
      destruct (expiresAt r <=? Z.max a b) eqn:E3; cbn [andb negb];
      try done; lia. }
  split; [apply H|]. rewrite H. by rewrite Z.max_id.
Qed.

(** X7.  The expiry instant itself.  The handler rejects a code when
    [Date.now() > expiresAt], the sweep deletes when
    [expiresAt <= now]: at the very millisecond of [expiresAt] a
    verification with the right code still succeeds and runs its
    [delete], while a sweep that runs at that millisecond removes the
    record, unless the record is the one issued to [__proto__], which
    no sweep reaches. *)
Theorem expiry_instant (store : OtpStore) (email : string) (r : OtpRecord) :
  store !! email = Some r -> email <> "" -> otp r <> "" ->
  verifyOtp store (Some email) (Some (otp r)) (expiresAt r)
    = (unset email store, verified) /\
  sweep (expiresAt r) store !! email
    = if String.eqb email "__proto__" then Some r else None.
Proof.
  intros Hs He Ho. split.
  - rewrite (verifyOtp_held _ _ _ _ _ He Ho Hs).
    destruct (expiresAt r >? expiresAt r) eqn:E; [lia|].
    by rewrite String.eqb_refl.
  - rewrite sweep_lookup, Hs. destruct (String.eqb email "__proto__"); [by rewrite andb_false_r|].
    rewrite andb_true_r. destruct (expiresAt r <=? expiresAt r) eqn:E; [done|lia].
Qed.

Lemma expiry_instant_witness :
  verifyOtp oneRecord (Some "u@x.com") (Some "123456") 300000
    = (∅, verified) /\
  sweep 300000 oneRecord !! "u@x.com" = None.
Proof.
  pose proof (expiry_instant oneRecord "u@x.com"
                {| otp := "123456"; expiresAt := 300000 |}
                eq_refl ltac:(discriminate) ltac:(discriminate)) as [H1 H2].
  split; [|exact H2]. cbn [otp expiresAt] in H1. rewrite H1. reflexivity.
Defined.

(** *** From issuance to verification *)

(** X8.  The life of an issued code.  Whatever the transport and the
    audit write did, and whatever the store held for the address
    before, a verification with the issued code succeeds at every
    instant up to five minutes after the issuance and answers
    "expired" at every later one.  Either way the handler runs its
    [delete]: for every address but [__proto__] the address has no
    record afterwards and every other record is as it was before the
    issuance; for [__proto__] the [delete] removes nothing and the
    issued record stays. *)
Theorem code_lives_five_minutes (v : Sender) (store : OtpStore) (email : string)
    (w : World) (t : Z) :
  email <> "" ->
  verifyOtp (fst (sendOtp v store (Some email) w)) (Some email)
            (Some (generateOtp (random w))) t
  = (if String.eqb email "__proto__" then <[ email := fresh w ]> store
     else delete email store,
     if t >? now w + 5 * 60 * 1000 then expired else verified).
Proof.
  intros He. rewrite (sendOtp_store _ _ _ _ He).
  rewrite (verifyOtp_held _ _ _ _ (fresh w) He (generateOtp_nonempty _))
    by apply lookup_insert_eq.
  unfold unset. rewrite delete_insert_eq. cbn [fresh expiresAt otp].
  destruct (t >? now w + 5 * 60 * 1000); [done|].
  by rewrite String.eqb_refl.
Qed.

Lemma code_lives_five_minutes_witness :
  verifyOtp (fst (sendOtp MailJs oneRecord (Some "u@x.com") worldAuditDown))
            (Some "u@x.com") (Some "550000") 301001
  = (∅, expired).
Proof.
  pose proof (code_lives_five_minutes MailJs oneRecord "u@x.com" worldAuditDown 301001) as H.
  change (generateOtp (random worldAuditDown)) with "550000" in H.
  rewrite H by discriminate. reflexivity.
Defined.

(** X9.  A second issuance for the same address retires the first
    code: unless the two draws give the same code, a verification with
    the first code is answered "invalid" at every instant up to the
    expiry of the second record, and the second record stays in the
    store. *)
Theorem reissue_retires_old_code (v1 v2 : Sender) (store : OtpStore)
    (email : string) (w1 w2 : World) (t : Z) :
  email <> "" ->
  generateOtp (random w1) <> generateOtp (random w2) ->
  t <= now w2 + 5 * 60 * 1000 ->
  let s1 := fst (sendOtp v1 store (Some email) w1) in
  let s2 := fst (sendOtp v2 s1 (Some email) w2) in
  verifyOtp s2 (Some email) (Some (generateOtp (random w1))) t = (s2, mismatch) /\
  s2 !! email = Some (fresh w2).
Proof.
  intros He Hne Ht s1 s2. subst s1 s2.
  rewrite !(sendOtp_store _ _ _ _ He).
  rewrite (verifyOtp_held _ _ _ _ (fresh w2) He (generateOtp_nonempty _))
    by apply lookup_insert_eq.
  rewrite lookup_insert_eq. cbn [fresh expiresAt otp].
  destruct (t >? now w2 + 5 * 60 * 1000) eqn:E; [lia|].
  destruct (String.eqb_spec (generateOtp (random w2)) (generateOtp (random w1)));
    [congruence|done].
Qed.

Lemma reissue_retires_old_code_witness :
  snd (verifyOtp (fst (sendOtp Merged (fst (sendOtp Merged ∅ (Some "u@x.com") world0))
                               (Some "u@x.com") world1))
                 (Some "u@x.com") (Some "100000") 2000) = mismatch.
Proof.
  destruct (reissue_retires_old_code Merged Merged ∅ "u@x.com" world0 world1 2000)
    as [H _].
  - discriminate.
  - vm_compute. discriminate.
  - simpl. lia.
  - change (generateOtp (random world0)) with "100000" in H.
    rewrite H. reflexivity.
Defined.

(** *** Which code is accepted *)

Lemma success_needs_record (store : OtpStore) (email code : option string) (t : Z) :
  success (snd (verifyOtp store email code t)) = true ->
  exists e c r,
    email = Some e /\ code = Some c /\ e <> "" /\ c <> "" /\
    store !! e = Some r /\ otp r = c /\ t <= expiresAt r /\
    fst (verifyOtp store email code t) = unset e store.
Proof.
  unfold verifyOtp. destruct email as [e|], code as [c|]; try done.
  destruct (negb (truthy (Some e)) || negb (truthy (Some c))) eqn:G; [done|].
  apply orb_false_elim in G as [Ge Gc].
  destruct (read store e) as [|r|[|]] eqn:Hs; try done.
  apply read_Held in Hs.
  destruct (t >? expiresAt r) eqn:E; [done|].
  destruct (String.eqb_spec (otp r) c) as [Hc|]; [|done].
  intros _. exists e, c, r. cbn [fst negb].
  repeat split; try done; try lia.
  - intros ->. done.
  - intros ->. done.
Qed.

(** X10.  After any sequence of issuances, verifications and sweeps,
    the only code [/verify-otp] accepts for an address is the code of
    the most recent issuance for it (of the initial record, if there
    was none), and only up to that record's expiry: no earlier code, no
    code of another address and no missing field ever gets the answer
    [success: true]. *)
Theorem only_latest_code_is_accepted (store : OtpStore) (ops : list Op)
    (email code : option string) (t : Z) :
  success (snd (verifyOtp (run store ops) email code t)) = true ->
  exists e r,
    email = Some e /\ code = Some (otp r) /\ t <= expiresAt r /\
    (lastIssued e ops = Some r \/
     (lastIssued e ops = None /\ store !! e = Some r)).
Proof.
  intros H. destruct (success_needs_record _ _ _ _ H)
    as (e & c & r & -> & -> & _ & _ & Hs & <- & Ht & _).
  exists e, r. repeat split; [done|]. by apply run_lookup.
Qed.

Lemma only_latest_code_is_accepted_witness :
  exists e r,
    Some "u@x.com" = Some e /\ Some "550000" = Some (otp r) /\ 2000 <= expiresAt r /\
    (lastIssued e [SendOtp Merged (Some "u@x.com") world0;
                   SendOtp Merged (Some "u@x.com") world1] = Some r \/
     (lastIssued e [SendOtp Merged (Some "u@x.com") world0;
                    SendOtp Merged (Some "u@x.com") world1] = None /\
      (∅ : OtpStore) !! e = Some r)).
Proof.
  apply (only_latest_code_is_accepted ∅
           [SendOtp Merged (Some "u@x.com") world0;
            SendOtp Merged (Some "u@x.com") world1]
           (Some "u@x.com") (Some "550000") 2000).
  vm_compute. reflexivity.
Defined.

(** *** Separation of the addresses *)

Lemma step_other (store : OtpStore) (op : Op) (email : string) :
  concerns email op = false ->
  step store op !! email
  = match store !! email with
    | Some r =>
        if negb (String.eqb email "__proto__") && sweeps r op then None else Some r
    | None => None
    end.
Proof.
  intros Hc. destruct op as [v e w|e c t|t]; cbn [step sweeps].
  - assert (fst (sendOtp v store e w) !! email = store !! email) as ->.
    { destruct e as [e|]; [|done]. cbn [concerns] in Hc.
      destruct (String.eqb_spec e "") as [->|He].
      - by rewrite sendOtp_store_falsy.
      - rewrite (sendOtp_store _ _ _ _ He). apply lookup_insert_ne.
        intros ->. by rewrite String.eqb_refl in Hc. }
    destruct (store !! email); [by rewrite andb_false_r|done].
  - assert (fst (verifyOtp store e c t) !! email = store !! email) as ->.
    { unfold verifyOtp. destruct e as [e|]; [|done]. cbn [concerns] in Hc.
      assert (e <> email) as Hne by (intros ->; by rewrite String.eqb_refl in Hc).
      destruct c as [c|]; [|done].
      destruct (negb (truthy (Some e)) || negb (truthy (Some c))); [done|].
      destruct (read store e) as [|r|[|]]; try done.
      destruct (t >? expiresAt r); [by apply unset_other|].
      destruct (negb (String.eqb (otp r) c)); [done|by apply unset_other]. }
    destruct (store !! email); [by rewrite andb_false_r|done].
  - rewrite sweep_lookup. destruct (store !! email) as [r|]; [|done].
    by rewrite andb_comm.
Qed.

Lemma run_other_none (ops : list Op) (store : OtpStore) (email : string) :
  forallb (fun op => negb (concerns email op)) ops = true ->
  store !! email = None -> run store ops !! email = None.
Proof.
  revert store. induction ops as [|op ops IH]; intros store Hall Hs; [done|].
  cbn [forallb] in Hall. apply andb_prop in Hall as [Hop Hall].
  apply negb_true_iff in Hop. cbn [run foldl]. apply (IH _ Hall).
  by rewrite (step_other _ _ _ Hop), Hs.
Qed.

(** X11.  A record is out of reach of the traffic for other addresses.
    Let any sequence of issuances, verifications and sweeps happen,
    none of them a request about [email]: the record of [email] is
    then still in the store, unchanged, unless one of the sweeps ran at
    or after its expiry, in which case it is gone; and the record
    issued to [__proto__], which no sweep reaches, is there in every
    case. *)
Theorem record_outlives_other_traffic (store : OtpStore) (ops : list Op)
    (email : string) (r : OtpRecord) :
  store !! email = Some r ->
  forallb (fun op => negb (concerns email op)) ops = true ->
  run store ops !! email
  = if negb (String.eqb email "__proto__") && existsb (sweeps r) ops
    then None else Some r.
Proof.
  revert store. induction ops as [|op ops IH]; intros store Hs Hall.
  { by rewrite andb_false_r. }
  cbn [forallb] in Hall. apply andb_prop in Hall as [Hop Hall].
  apply negb_true_iff in Hop. cbn [existsb].
  change (run store (op :: ops)) with (run (step store op) ops).
  pose proof (step_other store op email Hop) as Hstep. rewrite Hs in Hstep.
  destruct (negb (String.eqb email "__proto__")); cbn [andb] in *.
  - destruct (sweeps r op); cbn [orb].
    + by apply run_other_none.
    + by apply IH.
  - rewrite (IH _ Hstep Hall). reflexivity.
Qed.

Lemma record_outlives_other_traffic_witness :
  run oneRecord [SendOtp Merged (Some "v@x.com") world0;
                 VerifyOtp (Some "v@x.com") (Some "100000") 10; Sweep 2000]
    !! "u@x.com"
  = Some {| otp := "123456"; expiresAt := 300000 |}.
Proof.
  apply (record_outlives_other_traffic oneRecord
           [SendOtp Merged (Some "v@x.com") world0;
            VerifyOtp (Some "v@x.com") (Some "100000") 10; Sweep 2000]
           "u@x.com" {| otp := "123456"; expiresAt := 300000 |});
    reflexivity.
Defined.

End OtpMore.

(* ------------------------------------------------------------------ *)
(** ** More on [normalizeImageUrl]                                     *)
(* ------------------------------------------------------------------ *)

Module UrlMore.
Import Text TextFacts Url UrlFacts.


Lemma directView_nonempty (id : string) : directView id <> "".
Proof. unfold directView. by rewrite append_cons. Qed.

Lemma normalizeImageUrl_either (parseURL : string -> option URL) (url : string) :
  normalizeImageUrl parseURL url = url \/
  exists id, normalizeImageUrl parseURL url = directView id.
Proof.
  unfold normalizeImageUrl. destruct (parseURL url) as [u|]; [|by left].
  destruct (includes "drive.google.com" (hostname u)); [|by left].
  destruct (if truthy (if truthy (matchD (pathname u)) then matchD (pathname u) else None)
            then if truthy (matchD (pathname u)) then matchD (pathname u) else None
            else get "id" (searchParams u)) as [i|] eqn:E; [|by left].
  destruct (truthy (Some i)); [right; by exists i|by left].
Qed.

(** A link that is not empty is not normalised to the empty string. *)
Lemma normalizeImageUrl_nonempty (parseURL : string -> option URL) (url : string) :
  url <> "" -> normalizeImageUrl parseURL url <> "".
Proof.
  intros Hne. destruct (normalizeImageUrl_either parseURL url) as [->|(id & ->)];
    [done|apply directView_nonempty].
Qed.


End UrlMore.

(* ------------------------------------------------------------------ *)
(** ** More on the bulk sender                                         *)
(* ------------------------------------------------------------------ *)

Module BulkMore.
Import Text TextFacts Url Bulk BulkFacts.

Section LoopMore.

Variable sendMail : nat -> Mail -> Settled.
Variable user : string.
Variable v : Handler.
Variable b : Batch.

Lemma pass_pauses (st : Progress) (r : Row) :
  pauses (pass sendMail user v b st r)
  = (pauses st ++ if hasEmail r then pauseOf b else [])%list.
Proof.
  destruct (hasEmail r) eqn:E.
  - unfold pass. rewrite resolveEmail_truthy, E.
    destruct (resolveEmail r) as [email|] eqn:Er.
    + cbn [pauses]. unfold pauseOf. destruct (delayMs b) as [ms|];
        [destruct (ms >? 0)|]; by rewrite ?List.app_nil_r.
    + rewrite <- resolveEmail_truthy, Er in E. discriminate.
  - rewrite pass_skip by done. by rewrite List.app_nil_r.
Qed.

Lemma loop_pauses (rows : list Row) (st : Progress) :
  pauses (foldl (pass sendMail user v b) st rows)
  = (pauses st
     ++ concat (map (fun r => if hasEmail r then pauseOf b else []) rows))%list.
Proof.
  revert st; induction rows as [|r rows IH]; intros st.
  - simpl. by rewrite List.app_nil_r.
  - simpl. rewrite IH, pass_pauses, <- List.app_assoc. reflexivity.
Qed.

Lemma pass_details (st : Progress) (r : Row) :
  details (results st)
    = match v with MailSender => [] | MergedSender => map detailOf (log st) end ->
  details (results (pass sendMail user v b st r))
    = match v with
      | MailSender => []
      | MergedSender => map detailOf (log (pass sendMail user v b st r))
      end.
Proof.
  intros H. destruct (hasEmail r) eqn:E; [|by rewrite pass_skip].
  destruct (pass_send sendMail user v b st r E) as (email & _ & Hlog & Hres).
  cbv zeta in Hlog, Hres. rewrite Hlog, Hres.
  destruct v; destruct (sendMail _ _) eqn:Eo; cbn [record details]; rewrite H;
    try reflexivity; rewrite map_app; cbn [map]; unfold detailOf at 2;
    cbn [fst snd mailFor to]; reflexivity.
Qed.

Lemma loop_details (rows : list Row) (st : Progress) :
  details (results st)
    = match v with MailSender => [] | MergedSender => map detailOf (log st) end ->
  details (results (foldl (pass sendMail user v b) st rows))
    = match v with
      | MailSender => []
      | MergedSender => map detailOf (log (foldl (pass sendMail user v b) st rows))
      end.
Proof.
  revert st; induction rows as [|r rows IH]; intros st H; [done|].
  simpl. by apply IH, pass_details.
Qed.


End LoopMore.

(** X14.  The pace of a batch.  With a positive [delayMs] the loop waits
    that long after every send, the rejected ones and the last one
    included, and never for a row it skips: a batch with [n] addressed
    rows takes [n] waits.  With [delayMs] zero, negative or not a
    number it never waits. *)
Theorem one_pause_per_send (sendMail : nat -> Mail -> Settled) (user : string)
    (v : Handler) (b : Batch) :
  pauses (sendLoop sendMail user v b)
  = match delayMs b with
    | Some ms =>
        if ms >? 0
        then repeat ms (List.length (filter (fun r => hasEmail r = true) (recipients b)))
        else []
    | None => []
    end.
Proof.
  unfold sendLoop. rewrite loop_pauses. cbn [start pauses app].
  unfold pauseOf. induction (recipients b) as [|r rows IH].
  - by destruct (delayMs b) as [ms|]; [destruct (ms >? 0)|].
  - cbn [map concat]. rewrite IH, filter_cons.
    destruct (hasEmail r).
    + rewrite decide_True by done.
      by destruct (delayMs b) as [ms|]; [destruct (ms >? 0)|].
    + rewrite decide_False by done. reflexivity.
Qed.

(** X15.  The [details] list.  In the merged server it holds one entry for
    every mail handed to the transport, in that order, [sent] or
    [failed] with the message as the transport settled it, so that its
    length is [sent + failed]; the stand-alone bulk sender keeps no
    such list. *)
Theorem details_mirror_the_sends (sendMail : nat -> Mail -> Settled)
    (user : string) (v : Handler) (b : Batch) :
  let st := sendLoop sendMail user v b in
  match v with
  | MailSender => details (results st) = []
  | MergedSender =>
      details (results st) = map detailOf (log st) /\
      List.length (details (results st))
        = (sent (results st) + failed (results st))%nat
  end.
Proof.
  intros st.
  assert (details (results st)
          = match v with MailSender => [] | MergedSender => map detailOf (log st) end)
    as Hd.
  { unfold st, sendLoop. apply loop_details. by destruct v. }
  destruct (loop_sound sendMail user v b (recipients b) start
              (start_sound sendMail)) as [_ Hn Hs _].
  fold (sendLoop sendMail user v b) in Hn, Hs. fold st in Hn, Hs.
  destruct v; [exact Hd|]. split; [exact Hd|].
  rewrite Hd, length_map, Hs, Hn. symmetry. apply log_split.
Qed.


(** X17.  A link takes precedence over a file.  When the request names both
    a logo link and a banner link (not blank once trimmed), the loop is
    reached with no inline attachment at all: the uploaded logo and
    banner files are not read and not converted, so no failure of the
    image processing can refuse the request. *)
Theorem link_takes_precedence_over_file (v : Handler) (rt : Runtime)
    (req : Request) (csv : Upload) (rows : list Row) :
  csvFile req = Some csv ->
  truthy (bodySubject req) = true -> truthy (bodyHtml req) = true ->
  readCsv rt csv = inl rows -> rows <> [] ->
  trim rt (valueOr (bodyLogoUrl req) "") <> "" ->
  trim rt (valueOr (bodyBannerUrl req) "") <> "" ->
  exists b,
    prepare v rt req = inr b /\ inlineAttachments b = [] /\
    logoUrl b = normalizeImageUrl (parseURL rt) (trim rt (valueOr (bodyLogoUrl req) "")) /\
    bannerUrl b
      = normalizeImageUrl (parseURL rt) (trim rt (valueOr (bodyBannerUrl req) "")).
Proof.
  intros Hc Hs Hh Hr Hne Hl Hb. unfold prepare.
  rewrite Hc, Hs, Hh, Hr. cbn [negb orb].
  destruct rows as [|r rows]; [done|]. cbn [List.length Nat.eqb].
  destruct (String.eqb_spec (trim rt (valueOr (bodyLogoUrl req) "")) "") as [E|_];
    [done|].
  destruct (String.eqb_spec (trim rt (valueOr (bodyBannerUrl req) "")) "") as [E|_];
    [done|].
  pose proof (UrlMore.normalizeImageUrl_nonempty (parseURL rt) _ Hl) as Hl'.
  pose proof (UrlMore.normalizeImageUrl_nonempty (parseURL rt) _ Hb) as Hb'.
  unfold inlineImage.
  destruct (String.eqb_spec (normalizeImageUrl (parseURL rt)
                               (trim rt (valueOr (bodyLogoUrl req) ""))) "") as [E|_];
    [done|].
  destruct (String.eqb_spec (normalizeImageUrl (parseURL rt)
                               (trim rt (valueOr (bodyBannerUrl req) ""))) "") as [E|_];
    [done|].
  destruct (logoFile req), (bannerFile req); eexists; repeat split; reflexivity.
Qed.

Lemma link_takes_precedence_over_file_witness :
  exists b,
    prepare MailSender (offline [alice]) linksAndFiles = inr b /\
    inlineAttachments b = [] /\
    logoUrl b = "https://example.com/logo.png" /\
    bannerUrl b = "https://example.com/banner.png".
Proof.
  apply (link_takes_precedence_over_file MailSender (offline [alice]) linksAndFiles
           (upload "list.csv") [alice]);
    try reflexivity; discriminate.
Defined.

End BulkMore.

(* ------------------------------------------------------------------ *)
(** ** Inline images                                                   *)
(* ------------------------------------------------------------------ *)

Module ImageFacts.
Import Text TextFacts Bulk Image.

Lemma image_prefix_has_slash (s : string) :
  startsWith "image/" s = true -> includes "/" s = true.
Proof.
  unfold startsWith. destruct (stripPrefix "image/" s) as [r|] eqn:E; [|done].
  apply stripPrefix_Some in E as ->. intros _.
  rewrite !append_cons, append_nil_l. reflexivity.
Qed.

(** X18.  [pickImageMime] always answers a media type, a string with a
    slash in it, whatever the file is called and whatever type the
    upload declared; and a declared type that starts with [image/] is
    answered as declared, whatever the extension of the file name. *)
Theorem pickImageMime_is_a_media_type (extname toLowerCase : string -> string)
    (filename fallback : string) :
  includes "/" (pickImageMime extname toLowerCase filename fallback) = true /\
  (startsWith "image/" fallback = true ->
   pickImageMime extname toLowerCase filename fallback = fallback).
Proof.
  unfold pickImageMime. split.
  - destruct (truthy (Some fallback) && startsWith "image/" fallback) eqn:E1.
    { apply andb_prop in E1 as [_ E1]. by apply image_prefix_has_slash. }
    repeat match goal with
           | |- context [if ?c then _ else _] =>
               lazymatch c with
               | andb _ _ => fail
               | _ => destruct c; [reflexivity|]
               end
           end.
    destruct (truthy (Some fallback) && includes "/" fallback) eqn:E2; [|reflexivity].
    by apply andb_prop in E2 as [_ E2].
  - intros H. assert (truthy (Some fallback) = true) as ->; [|by rewrite H].
    destruct fallback; [discriminate H|reflexivity].
Qed.

Lemma pickImageMime_is_a_media_type_witness :
  pickImageMime extnameOfDrawing (fun s => s) "logo.svg" "image/webp" = "image/webp".
Proof.
  apply (proj2 (pickImageMime_is_a_media_type extnameOfDrawing (fun s => s)
                  "logo.svg" "image/webp")).
  reflexivity.
Defined.

(** X19.  Whatever [processInlineImage] returns is an inline attachment that
    carries the content id it was given and a type Gmail shows: one
    that the pattern for PNG, JPEG and GIF accepts.  An upload of any
    other kind is either converted, and then sent as [image/png], or
    refused. *)
Theorem inline_image_is_png_jpeg_or_gif (extname : string -> string)
    (basename : string -> string -> string) (toLowerCase : string -> string)
    (readFileSync : string -> list Byte.byte + Failed)
    (toPng : list Byte.byte -> list Byte.byte + string)
    (file : Upload) (cidDefault label : string) (a : Attachment) :
  processInlineImage extname basename toLowerCase readFileSync toPng
                     file cidDefault label = inl a ->
  exists filename content contentType,
    a = Inline filename content cidDefault contentType /\
    isSupported contentType = true.
Proof.
  unfold processInlineImage. destruct (readFileSync (path file)) as [content|e]; [|done].
  destruct (isSupported (pickImageMime _ _ _ _)) eqn:E.
  - intros [= <-]. by eexists _, _, _.
  - destruct (toPng content) as [png|]; [|done].
    intros [= <-]. by eexists _, _, _.
Qed.

Lemma inline_image_is_png_jpeg_or_gif_witness :
  exists filename content contentType,
    Inline "logo.png" [Byte.x89; Byte.x50] "logo-1" "image/png"
      = Inline filename content "logo-1" contentType /\
    isSupported contentType = true.
Proof.
  apply (inline_image_is_png_jpeg_or_gif
           extnameOfDrawing basenameOfDrawing (fun s => s) disk
           (fun _ => inl [Byte.x89; Byte.x50]) drawing "logo-1" "logo").
  reflexivity.
Defined.



End ImageFacts.

(* ------------------------------------------------------------------ *)
(** ** The basic bulk sender                                           *)
(* ------------------------------------------------------------------ *)

Module MailsFacts.
Import Text TextFacts Bulk BulkFacts Mails.

Section PassFacts.

Variable sendMail : nat -> Mail -> Settled.
Variable user : string.
Variable db : bool.
Variable subject html : string.

Lemma deliver_skip (st : Trace) (r : Row) :
  hasEmail r = false -> deliver sendMail user db subject html st r = st.
Proof.
  intros H. unfold deliver. rewrite resolveEmail_truthy, H.
  by destruct (resolveEmail r).
Qed.

Lemma deliver_send (st : Trace) (r : Row) :
  hasEmail r = true ->
  exists email,
    resolveEmail r = Some email /\
    let mail := mailOf user subject html r email in
    let outcome := sendMail (List.length (handed st)) mail in
    deliver sendMail user db subject html st r
    = {| handed := handed st ++ [(mail, outcome)];
         logged := match outcome with
                   | Resolved => if db then logged st ++ [email] else logged st
                   | Rejected _ => logged st
                   end |}.
Proof.
  intros H. unfold deliver. rewrite resolveEmail_truthy, H.
  destruct (resolveEmail r) as [email|] eqn:E.
  - exists email. by split.
  - rewrite <- resolveEmail_truthy, E in H. discriminate.
Qed.



Lemma loop_logged (rows : list Row) (st : Trace) :
  logged st
    = (if db then map (fun e => to e.1) (filter (fun e => delivered e = true) (handed st))
       else []) ->
  let st' := foldl (deliver sendMail user db subject html) st rows in
  logged st'
    = if db then map (fun e => to e.1) (filter (fun e => delivered e = true) (handed st'))
      else [].
Proof.
  revert st; induction rows as [|r rows IH]; intros st H; [exact H|].
  simpl. apply IH. destruct (hasEmail r) eqn:E; [|by rewrite deliver_skip].
  destruct (deliver_send st r E) as (email & He & Hp). cbv zeta in Hp. rewrite Hp.
  cbn [handed logged]. rewrite H. destruct db; [|by destruct (sendMail _ _)].
  rewrite filter_app, map_app, filter_cons. unfold delivered at 2. cbn [fst snd].
  destruct (sendMail _ _).
  - rewrite decide_True by done. reflexivity.
  - rewrite decide_False by done. by rewrite List.app_nil_r.
Qed.

End PassFacts.



(** X22.  The [sent_mails] documents.  With a document store, one document
    is written for every mail the transport delivered, in that order,
    and none for a mail it rejected; without one, none is written.
    How the writes themselves settle changes nothing. *)
Theorem documents_follow_deliveries (sendMail : nat -> Mail -> Settled)
    (user : string) (db : bool) (req : Posted) (rows : list Row) :
  let st := snd (sendMails sendMail user db req rows) in
  logged st
  = if db
    then map (fun e => to e.1) (filter (fun e => delivered e = true) (handed st))
    else [].
Proof.
  intros st. subst st. unfold sendMails.
  destruct (postedFile req); [|by destruct db].
  destruct (postedSubject req) as [subject|]; [|by destruct db].
  destruct (postedHtml req) as [html|]; [|by destruct db].
  destruct (negb (truthy (Some subject)) || negb (truthy (Some html)));
    [by destruct db|].
  cbn [snd]. apply loop_logged. by destruct db.
Qed.

End MailsFacts.

(* ------------------------------------------------------------------ *)
(** ** The template generator                                          *)
(* ------------------------------------------------------------------ *)

Module GenerateFacts.
Import Text TextFacts Backoff BackoffFacts Generate.

Lemma append_length (a b : string) :
  String.length (a ++ b) = (String.length a + String.length b)%nat.
Proof.
  induction a as [|c a IH]; [by rewrite append_nil_l|].
  rewrite append_cons. cbn [String.length]. by rewrite IH.
Qed.

Lemma substring_all (s : string) : substring 0 (String.length s) s = s.
Proof. induction s as [|c s IH]; [done|]. cbn [String.length substring]. by rewrite IH. Qed.

Lemma substring_skip (p s : string) (m : nat) :
  substring (String.length p) m (p ++ s) = substring 0 m s.
Proof.
  induction p as [|c p IH]; [by rewrite append_nil_l|].
  rewrite append_cons. cbn [String.length substring]. exact IH.
Qed.

Lemma substring_take (s p : string) :
  substring 0 (String.length s) (s ++ p) = s.
Proof.
  induction s as [|c s IH].
  - rewrite append_nil_l. by destruct p.
  - rewrite append_cons. cbn [String.length substring]. by rewrite IH.
Qed.

Lemma substringFrom_app (p s : string) :
  substringFrom (String.length p) (p ++ s) = s.
Proof.
  unfold substringFrom. rewrite substring_skip, append_length.
  replace (String.length p + String.length s - String.length p)%nat
    with (String.length s) by lia.
  apply substring_all.
Qed.

Lemma startsWith_app (p s : string) : startsWith p (p ++ s) = true.
Proof. unfold startsWith. by rewrite stripPrefix_app. Qed.

Lemma endsWith_app (s p : string) : endsWith p (s ++ p) = true.
Proof.
  unfold endsWith. rewrite append_length.
  replace (String.length s + String.length p - String.length p)%nat
    with (String.length s) by lia.
  rewrite substring_skip, substring_all, String.eqb_refl.
  apply andb_true_intro. split; [apply Nat.leb_le; lia|done].
Qed.

Lemma substringTo_app (s p : string) :
  substringTo (String.length (s ++ p) - String.length p) (s ++ p) = s.
Proof.
  unfold substringTo. rewrite append_length.
  replace (String.length s + String.length p - String.length p)%nat
    with (String.length s) by lia.
  apply substring_take.
Qed.

(** The closing fence goes, and nothing else. *)
Lemma closing_fence (s : string) :
  (if endsWith fence (s ++ fence)
   then substringTo (String.length (s ++ fence) - 3) (s ++ fence)
   else s ++ fence) = s.
Proof. rewrite endsWith_app. apply (substringTo_app s fence). Qed.

Lemma dropClosing_app (s : string) : dropClosing (s ++ fence) = s.
Proof.
  induction s as [|c s IH]; [reflexivity|].
  rewrite append_cons. cbn [dropClosing].
  destruct (String.eqb_spec (String c (s ++ fence)) fence) as [E|_].
  - apply (f_equal String.length) in E. cbn [String.length] in E.
    rewrite append_length in E. cbn [String.length fence] in E. lia.
  - by rewrite IH.
Qed.

(** After the opening [```html] the stand-alone clean-up looks for a
    bare fence once more; a body shorter than a fence is safe from
    it. *)
Lemma unfence_rest (body : string) :
  startsWith fence body = false ->
  (let s := body ++ fence in
   let s := if startsWith fence s then substringFrom 3 s else s in
   if endsWith fence s then substringTo (String.length s - 3) s else s) = body.
Proof.
  intros H. cbv zeta.
  destruct (startsWith fence (body ++ fence)) eqn:E; [|apply closing_fence].
  destruct body as [|a [|b [|c rest]]].
  - reflexivity.
  - rewrite append_cons, append_nil_l in *. unfold startsWith, fence in E.
    cbn -[Ascii.eqb] in E. destruct (Ascii.eqb_spec "`" a) as [<-|]; [reflexivity|done].
  - rewrite !append_cons, append_nil_l in *. unfold startsWith, fence in E.
    cbn -[Ascii.eqb] in E. destruct (Ascii.eqb_spec "`" a) as [<-|]; [|done].
    destruct (Ascii.eqb_spec "`" b) as [<-|]; [reflexivity|done].
  - rewrite !append_cons in E. unfold startsWith, fence in E, H.
    cbn -[Ascii.eqb] in E, H.
    destruct (Ascii.eqb "`" a); [|done]. destruct (Ascii.eqb "`" b); [|done].
    destruct (Ascii.eqb "`" c); done.
Qed.

(** X23.  An answer wrapped in a [```html] fence.  Both clean-ups remove the
    opening and the closing fence and nothing of the body: the
    stand-alone generator answers the body as it stands between the
    fences, the merged server the body trimmed. *)
Theorem html_fence_is_removed (trim : string -> string) (v : Flavour)
    (modelOutput body : string) :
  trim modelOutput = htmlFence ++ body ++ fence ->
  startsWith fence body = false ->
  clean trim v modelOutput
  = match v with Standalone => body | Unified => trim body end.
Proof.
  intros Ht Hb. unfold clean. rewrite Ht. destruct v.
  - unfold unfence. rewrite startsWith_app.
    change (substringFrom 7) with (substringFrom (String.length htmlFence)).
    rewrite (substringFrom_app htmlFence (body ++ fence)).
    apply (unfence_rest body Hb).
  - unfold replaceFences. by rewrite stripPrefix_app, dropClosing_app.
Qed.

Lemma html_fence_is_removed_witness :
  clean (fun s => s) Unified "```html<!DOCTYPE html><p>Hi</p>```"
  = "<!DOCTYPE html><p>Hi</p>".
Proof.
  apply (html_fence_is_removed (fun s => s) Unified
           "```html<!DOCTYPE html><p>Hi</p>```" "<!DOCTYPE html><p>Hi</p>");
    reflexivity.
Defined.

Lemma no_html_after (body : string) :
  startsWith "html" body = false ->
  stripPrefix htmlFence (fence ++ body ++ fence) = None.
Proof.
  intros H. unfold htmlFence, fence. rewrite !append_cons, append_nil_l.
  cbn -[Ascii.eqb]. rewrite !Ascii.eqb_refl.
  unfold startsWith in H.
  destruct body as [|a [|b [|c [|d rest]]]]; rewrite ?append_cons, ?append_nil_l;
    cbn -[Ascii.eqb] in *;
    repeat match goal with
           | |- context [Ascii.eqb ?x ?y] => destruct (Ascii.eqb_spec x y); try done
           | H : context [Ascii.eqb ?x ?y] |- _ => destruct (Ascii.eqb_spec x y); try done
           end.
Qed.

(** X24.  An answer wrapped in a bare fence.  Here the two clean-ups part:
    the stand-alone generator removes both fences, the pattern of the
    merged server knows the opening fence as [```html] only, removes
    the closing fence and leaves the three backticks in front of the
    page it answers. *)
Theorem bare_fence_survives_in_merged (trim : string -> string)
    (modelOutput body : string) :
  trim modelOutput = fence ++ body ++ fence ->
  startsWith "html" body = false ->
  clean trim Standalone modelOutput = body /\
  clean trim Unified modelOutput = trim (fence ++ body).
Proof.
  intros Ht Hb. unfold clean. rewrite Ht. split.
  - assert (startsWith htmlFence (fence ++ body ++ fence) = false) as Hs
      by (unfold startsWith; by rewrite (no_html_after body Hb)).
    unfold unfence. rewrite Hs, startsWith_app.
    change (substringFrom 3) with (substringFrom (String.length fence)).
    rewrite (substringFrom_app fence (body ++ fence)).
    apply closing_fence.
  - unfold replaceFences. rewrite (no_html_after body Hb).
    by rewrite <- append_assoc, dropClosing_app.
Qed.

Lemma bare_fence_survives_in_merged_witness :
  clean (fun s => s) Standalone "```<p>Hi</p>```" = "<p>Hi</p>" /\
  clean (fun s => s) Unified "```<p>Hi</p>```" = "```<p>Hi</p>".
Proof.
  apply (bare_fence_survives_in_merged (fun s => s) "```<p>Hi</p>```" "<p>Hi</p>");
    reflexivity.
Defined.

(** X25.  The handler on top of the retry loop.  While the model's endpoint
    answers 429 or 5xx, a request with content is answered only after
    five fetches and five waits, 31 seconds in all, and then with 500
    "Failed to generate email", the details being the loop's terminal
    message. *)
Theorem overloaded_model_costs_31_seconds (trim : string -> string)
    (modelText errorMessage : string -> option string) (v : Flavour)
    (fetch : nat -> Fetched) (content : string) :
  content <> "" ->
  (forall i, exists status body,
      fetch i = Response status body /\ retryable status = true) ->
  errorMessage (exhausted v) = None ->
  generateEmail trim modelText errorMessage v fetch (Some content)
  = Some {| answer := Problem 500 "Failed to generate email" (Some (exhausted v));
            waited := [1000; 2000; 4000; 8000; 16000];
            fetches := 5 |}.
Proof.
  intros Hc Hall He. unfold generateEmail. rewrite (truthy_Some _ Hc). cbn [negb].
  unfold fetchWithBackoff.
  rewrite (BackoffMore.loop_all_retryable v fetch 5 5 eq_refl Hall 5 0)
    by (simpl; lia).
  cbn [outcome delays calls]. unfold errorDetails. by rewrite He.
Qed.

Lemma overloaded_model_costs_31_seconds_witness :
  generateEmail (fun s => s) (fun _ => None) (fun _ => None) Unified
                (fun _ => Response 503 (Json "{}")) (Some "Hello")
  = Some {| answer := Problem 500 "Failed to generate email"
                              (Some "Failed after max retries");
            waited := [1000; 2000; 4000; 8000; 16000];
            fetches := 5 |}.
Proof.
  apply (overloaded_model_costs_31_seconds (fun s => s) (fun _ => None) (fun _ => None)
           Unified (fun _ => Response 503 (Json "{}")) "Hello").
  - discriminate.
  - intros i. exists 503, (Json "{}"). split; reflexivity.
  - reflexivity.
Defined.

End GenerateFacts.

(* ------------------------------------------------------------------ *)
(** ** Start-up                                                        *)
(* ------------------------------------------------------------------ *)

Module PortsFacts.
Import Ports.

Lemma attempts_spec (listen : Z -> Listen) (port attemptsLeft : Z) (fuel : nat) :
  forall i, (Z.to_nat (attemptsLeft - i) <= fuel)%nat ->
  exists r,
    attempts Express4 listen port attemptsLeft fuel i = Some r /\
    (r = Exited 1 \/ exists q, r = Bound q) /\
    forall q, r = Bound q <->
      port + i <= q < port + attemptsLeft /\ listen q = Listening /\
      forall p, port + i <= p < q -> listen p = AddrInUse.
Proof.
  induction fuel as [|fuel IH]; intros i Hfuel.
  - cbn [attempts]. destruct (i <? attemptsLeft) eqn:E; [lia|].
    exists (Exited 1). split; [done|]. split; [by left|].
    intros q. split; [done|]. lia.
  - cbn [attempts]. destruct (i <? attemptsLeft) eqn:E.
    2: { exists (Exited 1). split; [done|]. split; [by left|].
         intros q. split; [done|]. lia. }
    destruct (listen (port + i)) eqn:El.
    + exists (Bound (port + i)). split; [done|]. split; [right; by eexists|].
      intros q. split.
      * intros [= <-]. split; [lia|]. split; [done|]. lia.
      * intros (Hq & Hl & Hbefore).
        destruct (Z.eq_dec q (port + i)) as [->|Hne]; [done|].
        rewrite (Hbefore (port + i)) in El by lia. done.
    + destruct (IH (i + 1) ltac:(lia)) as (r & Hr & Hk & Hspec).
      exists r. split; [done|]. split; [done|].
      intros q. rewrite Hspec. split.
      * intros (Hq & Hl & Hbefore). split; [lia|]. split; [done|].
        intros p Hp. destruct (Z.eq_dec p (port + i)) as [->|Hne]; [done|].
        apply Hbefore. lia.
      * intros (Hq & Hl & Hbefore).
        assert (q <> port + i) by (intros ->; rewrite El in Hl; done).
        split; [lia|]. split; [done|]. intros p Hp. apply Hbefore. lia.
    + exists (Exited 1). split; [done|]. split; [by left|].
      intros q. split; [done|]. intros (Hq & Hl & Hbefore).
      destruct (Z.eq_dec q (port + i)) as [->|Hne].
      * rewrite El in Hl. done.
      * rewrite (Hbefore (port + i)) in El by lia. done.
    + exists (Exited 1). split; [done|]. split; [by left|].
      intros q. split; [done|]. intros (Hq & Hl & Hbefore).
      destruct (Z.eq_dec q (port + i)) as [->|Hne].
      * rewrite El in Hl. done.
      * rewrite (Hbefore (port + i)) in El by lia. done.
Qed.

(** X26.  [startServer] always comes to an end, and how depends on the
    [app.listen] it runs on.
    - On Express 4 it binds the lowest port it can: the server listens
      on [q] exactly when [q] is one of the [attemptsLeft] ports from
      [port] on, [q] can be listened on, and every port of the range
      below [q] is in use.  In every other case, all the ports of the
      range in use or a failure other than [EADDRINUSE] met first, the
      process exits with code 1.
    - On Express 5 it never gets past the first port: with at least
      one attempt it ends after the first [app.listen], with the
      server listening on [port] if that succeeded, with nothing
      listening if the server emitted an error, whatever its code, and
      with exit code 1 if the call threw; no second port is tried. *)
Theorem startServer_by_express (listen : Z -> Listen) (port attemptsLeft : Z) :
  (exists r,
     startServer Express4 listen port attemptsLeft = Some r /\
     (r = Exited 1 \/ exists q, r = Bound q) /\
     forall q, r = Bound q <->
       port <= q < port + attemptsLeft /\ listen q = Listening /\
       forall p, port <= p < q -> listen p = AddrInUse) /\
  startServer Express5 listen port attemptsLeft
  = Some (if attemptsLeft <=? 0 then Exited 1
          else match listen port with
               | Listening => Bound port
               | Threw => Exited 1
               | _ => Unbound port
               end).
Proof.
  split.
  - destruct (attempts_spec listen port attemptsLeft (Z.to_nat attemptsLeft) 0
                ltac:(lia)) as (r & Hr & Hk & Hspec).
    exists r. split; [exact Hr|]. split; [exact Hk|].
    intros q. rewrite Hspec. by rewrite Z.add_0_r.
  - unfold startServer. destruct (attemptsLeft <=? 0) eqn:E.
    + destruct (Z.to_nat attemptsLeft); cbn [attempts];
        destruct (0 <? attemptsLeft) eqn:E'; try lia; reflexivity.
    + destruct (Z.to_nat attemptsLeft) as [|n] eqn:En; [lia|]. cbn [attempts].
      destruct (0 <? attemptsLeft) eqn:E'; [|lia].
      rewrite Z.add_0_r. by destruct (listen port).
Qed.

Example two_ports_taken :
  startServer Express4 twoTaken (initialPort None) maxAttempts = Some (Bound 3002) /\
  startServer Express5 twoTaken (initialPort None) maxAttempts = Some (Unbound 3000).
Proof. split; vm_compute; reflexivity. Qed.

End PortsFacts.
